(** * SoloCombat: raid resolution of the Discord tower game

    A shallow embedding of [Game/Managers/SoloCombat.py]: the power score
    calculator, the monster selector, the battle resolver, the raid loop, the
    death handler, the summary text and the raid command.

    Conventions of the embedding.
    - Python integers are [Z].  A Python float is the rational [Q] it
      denotes.  The functions named as in the source compute with exact
      rationals; they carry the properties that do not depend on rounding.
      [rn] rounds a rational to the nearest binary64 number, ties to even;
      the definitions whose name ends in [64] ([base_score64],
      [calculate_power_score64], [process_battle64], [gold_loss64]) and
      [format_0f] round every operation as CPython does, and carry the
      properties that depend on it.  Results beyond the binary64 range
      (infinities, [OverflowError]) are outside the model.
    - The process-wide [random] generator is an explicit stream of raw draws
      with a cursor, threaded through every call that consumes randomness.
    - The player is the one mutable object the code touches: it lives in the
      [World] next to the generator.  A raised exception leaves the world as
      it was at the raise, as in Python.
    - Text is a [string] of UTF-8 bytes.  The write that the raid command
      sends to the players collection is returned next to its summary.
    - Dictionaries whose iteration order is irrelevant are [gmap]s; the
      equipment dictionary, whose order fixes the order of the random draws
      in [handle_player_death], is a list of entries with unique keys. *)

From Stdlib Require Import ZArith NArith QArith Qround Qpower String List Lia Lqa.
From Stdlib Require PrimFloat FloatOps SpecFloat Uint63.
From stdpp Require Import base option list strings pretty gmap.

Local Open Scope Z_scope.

(** ** Data model *)

(** An item record is a dictionary of numeric attributes; the code reads
    only ['power'] from it. *)
Abbreviation Item := (gmap string Q).

Module Player.
Record t := mk {
  discord_id : string;
  level : Z;
  stats : gmap string Z;
  equipment : list (string * option Item);
  current_hp : Q;
  max_hp : Q;
  gold : Z;
  experience : Z;
  current_party_id : option string
}.
End Player.

Module Monster.
Record t := mk {
  monster_id : string;
  name : string;
  level : Z;
  rarity : string;
  monster_type : string;
  hp : Z;
  damage : Z;
  defense : Z;
  experience_reward : Z;
  gold_reward : Z;
  loot_table : list string
}.
End Monster.

(** A template record of the monster catalog.  [monster_id], [name] and
    [level] are read with a subscript, the other fields with [.get] and a
    default, so they may be absent. *)
Module Template.
Record t := mk {
  monster_id : string;
  name : string;
  level : Z;
  monster_type : option string;
  base_hp : option Z;
  base_damage : option Z;
  base_defense : option Z;
  experience_reward : option Z;
  gold_reward : option Z;
  loot_table : option (list string)
}.
End Template.

Inductive Entity :=
| EPlayer (p : Player.t)
| EMonster (m : Monster.t).

Record Rewards := mkRewards { r_gold : Z; r_experience : Z }.

Record BattleResult := mkBattleResult {
  player_won : bool;
  b_damage_taken : Z;
  rewards : Rewards;
  b_monster_id : string
}.

Record RaidResults := mkRaidResults {
  monsters_defeated : list string;
  monsters_defeated_by : list string;
  total_rewards : Rewards;
  battles : list BattleResult;
  raid_complete : bool;
  player_survived : bool;
  damage_taken : Z
}.

Record DroppedItem := mkDropped { d_slot : string; d_item : Item }.

(** ** Effects: exceptions, the random generator, the mutable player *)

Inductive Exn :=
| KeyError (key : string)
| ValueError (msg : string)
| AttributeError (attr : string)
| IndexError.

Inductive Result (A : Type) :=
| Ok (a : A)
| Raise (e : Exn).
Arguments Ok {A} a.
Arguments Raise {A} e.

Record Rng := mkRng { stream : nat -> N; cursor : nat }.

Record World := mkWorld { w_player : Player.t; w_rng : Rng }.

Definition M (A : Type) : Type := World -> Result A * World.

Definition ret {A} (a : A) : M A := fun w => (Ok a, w).

Definition raise {A} (e : Exn) : M A := fun w => (Raise e, w).

Definition bind {A B} (m : M A) (k : A -> M B) : M B :=
  fun w =>
    match m w with
    | (Ok a, w') => k a w'
    | (Raise e, w') => (Raise e, w')
    end.

Declare Scope py_scope.
Delimit Scope py_scope with py.
Notation "x <- m ;; k" := (bind m (fun x => k))
  (at level 100, m at next level, right associativity) : py_scope.
Notation "m ;;; k" := (bind m (fun _ => k))
  (at level 100, right associativity) : py_scope.
Local Open Scope py_scope.

Definition lift {A} (r : Result A) : M A := fun w => (r, w).

Definition get_player : M Player.t := fun w => (Ok (w_player w), w).

Definition put_player (p : Player.t) : M unit :=
  fun w => (Ok tt, mkWorld p (w_rng w)).

(** The world after one raw draw: only the cursor moves. *)
Definition advance (w : World) : World :=
  mkWorld (w_player w) (mkRng (stream (w_rng w)) (S (cursor (w_rng w)))).

Definition peek (w : World) : N := stream (w_rng w) (cursor (w_rng w)).

(** One raw draw from the generator. *)
Definition next_raw : M N := fun w => (Ok (peek w), advance w).

(** [random.random()]: a multiple of 2^-53 in the half-open unit interval. *)
Definition random_random : M Q :=
  k <- next_raw ;;
  ret (Z.of_N (k mod 2 ^ 53) # 2 ^ 53)%Q.

(** [random.uniform(a, b)] is [a + (b - a) * random()]. *)
Definition random_uniform (a b : Q) : M Q :=
  r <- random_random ;;
  ret (a + (b - a) * r)%Q.

(** [_randbelow(n)]: some integer below [n], as the generator decides. *)
Definition randbelow (n : N) : M N :=
  k <- next_raw ;;
  ret (k mod n)%N.

(** [random.randint(a, b)] is [randrange(a, b + 1)], which raises
    [ValueError] on an empty range. *)
Definition random_randint (a b : Z) : M Z :=
  if 0 <? b + 1 - a
  then k <- randbelow (Z.to_N (b + 1 - a)) ;; ret (a + Z.of_N k)
  else raise (ValueError "empty range for randrange()").

(** [random.sample(population, k)], pool algorithm of CPython: the element
    at a drawn index of the live pool is taken and the last live element is
    moved into its place.  (For large populations CPython rejects repeated
    indices instead; both ways the result sits at pairwise distinct positions
    of the population.) *)
Fixpoint sample_loop {A} (k : nat) (pool : list A) : M (list A) :=
  match k with
  | O => ret []
  | S k' =>
      j <- randbelow (N.of_nat (length pool)) ;;
      match pool !! N.to_nat j, last pool with
      | Some x, Some z =>
          rest <- sample_loop k' (take (length pool - 1) (<[N.to_nat j := z]> pool)) ;;
          ret (x :: rest)
      | _, _ => raise IndexError
      end
  end.

Definition random_sample {A} (population : list A) (k : Z) : M (list A) :=
  if (0 <=? k) && (k <=? Z.of_nat (length population))
  then sample_loop (Z.to_nat k) population
  else raise (ValueError "Sample larger than population or is negative").

(** ** Binary64 arithmetic *)

Definition pow2 (e : Z) : Q := (2 ^ e)%Q.

(** Binary exponent of a positive rational: [pow2 (mag x) <= x] and
    [x < pow2 (mag x + 1)]. *)
Definition mag (x : Q) : Z :=
  let e := Z.log2 (Qnum x) - Z.log2 (Z.pos (Qden x)) in
  if Qle_bool (pow2 e) x then e else e - 1.

(** Exponent of the last place of a positive binary64 number: 53 significant
    bits, and no place below 2^-1074 (the subnormal numbers). *)
Definition cexp (x : Q) : Z := Z.max (mag x - 52) (-1074).

(** Nearest integer, ties to even. *)
Definition rhe (s : Q) : Z :=
  let f := Qfloor s in
  match (s - inject_Z f ?= 1 # 2)%Q with
  | Lt => f
  | Gt => f + 1
  | Eq => if Z.even f then f else f + 1
  end.

Definition rn_pos (x : Q) : Q :=
  (inject_Z (rhe (x / pow2 (cexp x))) * pow2 (cexp x))%Q.

(** Rounding to the nearest binary64 number, ties to even. *)
Definition rn (x : Q) : Q :=
  Qred
    match (x ?= 0)%Q with
    | Eq => 0%Q
    | Gt => rn_pos x
    | Lt => (- rn_pos (- x))%Q
    end.

(** A binary64 number: an integer of at most 53 bits times a power of two
    no smaller than 2^-1074. *)
Definition representable (x : Q) : Prop :=
  exists n c : Z, Z.abs n <= 2 ^ 53 /\ -1074 <= c /\ (x == inject_Z n * pow2 c)%Q.

(** [float(z)], the conversion every mixed operation applies to its integer
    operand. *)
Definition float_of_int (z : Z) : Q := rn (inject_Z z).

(** A float literal of the source text. *)
Definition float_lit (x : Q) : Q := rn x.

Definition float_add (x y : Q) : Q := rn (x + y).

Definition float_mul (x y : Q) : Q := rn (x * y).

Definition float_div (x y : Q) : Q := rn (x / y).

(** The binary64 floats of the kernel, against which [rn] is tested: the
    rational a finite hardware float denotes, and the hardware float of an
    integer below 2^63 in absolute value. *)
Definition Q_of_float (f : PrimFloat.float) : Q :=
  match FloatOps.Prim2SF f with
  | SpecFloat.S754_finite s m e =>
      Qred ((if s then -1 else 1) * inject_Z (Z.pos m) * pow2 e)
  | _ => 0%Q
  end.

Definition hardware_int (z : Z) : PrimFloat.float :=
  match z with
  | Z0 => PrimFloat.zero
  | Zpos p => PrimFloat.of_uint63 (Uint63.of_Z (Zpos p))
  | Zneg p => PrimFloat.opp (PrimFloat.of_uint63 (Uint63.of_Z (Zpos p)))
  end.

(** The sum, the difference, the product and the quotient that the hardware
    computes for two floats are those of the model. *)
Definition agrees_with_hardware (f g : PrimFloat.float) : bool :=
  let x := Q_of_float f in
  let y := Q_of_float g in
  Qeq_bool (Q_of_float (PrimFloat.add f g)) (float_add x y)
  && Qeq_bool (Q_of_float (PrimFloat.sub f g)) (float_add x (- y))
  && Qeq_bool (Q_of_float (PrimFloat.mul f g)) (float_mul x y)
  && Qeq_bool (Q_of_float (PrimFloat.div f g)) (float_div x y).

(** Integers on both sides of 2^53, the literals of the source, the two
    largest values of [random.random()], and numbers small enough for their
    products to be subnormal or to vanish. *)
Definition hardware_samples : list PrimFloat.float :=
  let i := hardware_int in
  [i 1; i 3; i 10; i 20; i 47; i (-7); i (2 ^ 53 - 1); i (2 ^ 53 + 1);
   i 100000000000000007;
   PrimFloat.div (i 1) (i 10); PrimFloat.div (i 2) (i 10);
   PrimFloat.div (i 3) (i 10); PrimFloat.div (i 12) (i 10);
   PrimFloat.div (i 13) (i 10); PrimFloat.div (i 15) (i 10);
   PrimFloat.div (i (-1)) (i 3);
   PrimFloat.div (i (2 ^ 53 - 1)) (i (2 ^ 53));
   PrimFloat.div (i (2 ^ 53 - 2)) (i (2 ^ 53));
   FloatOps.Z.ldexp (i 3) (-600); FloatOps.Z.ldexp (i 5) (-470);
   FloatOps.Z.ldexp (PrimFloat.div (i 1) (i 3)) (-600);
   FloatOps.Z.ldexp (PrimFloat.div (i 7) (i 10)) (-473)].

(** ** CombatSystem *)

(** Truth value of an equipment slot: [None] and the empty record are
    false. *)
Definition truthy (item : option Item) : bool :=
  match item with
  | Some d => negb (bool_decide (size d = 0%nat))
  | None => false
  end.

Definition stat (p : Player.t) (key : string) : Result Z :=
  match Player.stats p !! key with
  | Some v => Ok v
  | None => Raise (KeyError key)
  end.

Definition equipment_bonus (equipment : list (string * option Item)) : Q :=
  fold_left
    (fun bonus entry =>
       match snd entry with
       | Some d => if truthy (Some d) then (bonus + default 0 (d !! "power"))%Q else bonus
       | None => bonus
       end)
    equipment 0%Q.

Definition rarity_multipliers : gmap string Q :=
  list_to_map
    [("E", 1.0); ("D", 1.3); ("C", 1.6); ("B", 2.0); ("A", 2.5); ("S", 3.0)]%Q.

Definition result_bind {A B} (r : Result A) (k : A -> Result B) : Result B :=
  match r with
  | Ok a => k a
  | Raise e => Raise e
  end.

(** The value of [base_score] when the mindset draw is reached. *)
Definition base_score (entity : Entity) (is_player : bool) : Result Q :=
  match is_player, entity with
  | true, EPlayer p =>
      result_bind (stat p "strength") (fun strength =>
      result_bind (stat p "agility") (fun agility =>
      result_bind (stat p "vitality") (fun vitality =>
      Ok (0 + inject_Z strength * 1.5 + inject_Z agility * 1.2
            + inject_Z vitality * 1.0 + inject_Z (Player.level p * 5)
            + equipment_bonus (Player.equipment p))%Q)))
  | false, EMonster m =>
      Ok ((0 + inject_Z (Monster.level m * 6) + inject_Z (Monster.damage m) * 1.3
             + inject_Z (Monster.defense m))
          * default 1.0 (rarity_multipliers !! Monster.rarity m))%Q
  | true, EMonster _ => Raise (AttributeError "stats")
  | false, EPlayer _ => Raise (AttributeError "damage")
  end.

Definition calculate_power_score (entity : Entity) (is_player : bool) : M Q :=
  base <- lift (base_score entity is_player) ;;
  mindset <- random_uniform 0 10 ;;
  ret (base * (1 + mindset / 20))%Q.

(** [random.uniform(a, b)] on integer bounds, in binary64: [b - a] is an
    integer, the product and the sum are rounded. *)
Definition random_uniform64 (a b : Z) : M Q :=
  r <- random_random ;;
  ret (float_add (float_of_int a) (float_mul (float_of_int (b - a)) r)).

(** The equipment bonus in binary64: the bonus starts as the integer 0 and
    every addition of a ['power'] is rounded.  (Python adds attributes that
    are integers exactly; the two ways agree while the running total stays
    within 53 bits.) *)
Definition equipment_bonus64 (equipment : list (string * option Item)) : Q :=
  fold_left
    (fun bonus entry =>
       match snd entry with
       | Some d =>
           if truthy (Some d) then float_add bonus (default 0%Q (d !! "power"))
           else bonus
       | None => bonus
       end)
    equipment (float_of_int 0).

(** [base_score] in binary64, one rounding per operation of the source. *)
Definition base_score64 (entity : Entity) (is_player : bool) : Result Q :=
  match is_player, entity with
  | true, EPlayer p =>
      result_bind (stat p "strength") (fun strength =>
      result_bind (stat p "agility") (fun agility =>
      result_bind (stat p "vitality") (fun vitality =>
      let score :=
        float_add (float_of_int 0)
          (float_mul (float_of_int strength) (float_lit 1.5)) in
      let score :=
        float_add score (float_mul (float_of_int agility) (float_lit 1.2)) in
      let score :=
        float_add score (float_mul (float_of_int vitality) (float_lit 1.0)) in
      let score := float_add score (float_of_int (Player.level p * 5)) in
      Ok (float_add score (equipment_bonus64 (Player.equipment p))))))
  | false, EMonster m =>
      let score :=
        float_add (float_of_int (0 + Monster.level m * 6))
          (float_mul (float_of_int (Monster.damage m)) (float_lit 1.3)) in
      let score := float_add score (float_of_int (Monster.defense m)) in
      Ok (float_mul score
            (float_lit (default 1.0%Q (rarity_multipliers !! Monster.rarity m))))
  | true, EMonster _ => Raise (AttributeError "stats")
  | false, EPlayer _ => Raise (AttributeError "damage")
  end.

(** [calculate_power_score] in binary64. *)
Definition calculate_power_score64 (entity : Entity) (is_player : bool) : M Q :=
  base <- lift (base_score64 entity is_player) ;;
  mindset <- random_uniform64 0 10 ;;
  ret (float_mul base
         (float_add (float_of_int 1) (float_div mindset (float_of_int 20)))).

(** ** RaidManager *)

Definition rarity_ranges : list (string * (Z * Z)) :=
  [("E", (1, 10)); ("D", (11, 20)); ("C", (21, 30));
   ("B", (31, 40)); ("A", (41, 50)); ("S", (51, 60))].

(** The loop over [rarity_ranges.items()]: the first range whose upper bound
    admits the level wins and ends the loop; [current] is the value that
    [current_rarity] holds when no range matches. *)
Fixpoint first_rarity (tower_level : Z) (ranges : list (string * (Z * Z)))
    (current : string) : string :=
  match ranges with
  | [] => current
  | (rarity, (min_level, max_level)) :: rest =>
      if tower_level <=? max_level then rarity
      else first_rarity tower_level rest current
  end.

Definition current_rarity (tower_level : Z) : string :=
  first_rarity tower_level rarity_ranges "E".

(** [monsters_collection.find({"monster_id": {"$regex": "^" + rarity}})]:
    the templates whose identifier starts with the tier letter, in catalog
    order. *)
Definition find (catalog : list Template.t) (rarity : string) : list Template.t :=
  List.filter (fun d => String.prefix rarity (Template.monster_id d)) catalog.

Definition make_monster (rarity : string) (d : Template.t) : Monster.t :=
  Monster.mk
    (Template.monster_id d)
    (Template.name d)
    (Template.level d)
    rarity
    (default "generic" (Template.monster_type d))
    (default 50 (Template.base_hp d))
    (default 5 (Template.base_damage d))
    (default 3 (Template.base_defense d))
    (default 15 (Template.experience_reward d))
    (default 10 (Template.gold_reward d))
    (default [] (Template.loot_table d)).

Definition generate_monsters (catalog : list Template.t)
    (tower_level player_level : Z) : M (list Monster.t) :=
  let rarity := current_rarity tower_level in
  let potential_monsters := find catalog rarity in
  num_monsters <-
    random_randint 3 (Z.min (Z.of_nat (length potential_monsters)) 7) ;;
  selected_monster_data <- random_sample potential_monsters num_monsters ;;
  ret (map (make_monster rarity) selected_monster_data).

Definition process_battle (monster : Monster.t) : M BattleResult :=
  player <- get_player ;;
  player_power <- calculate_power_score (EPlayer player) true ;;
  monster_power <- calculate_power_score (EMonster monster) false ;;
  let player_wins := negb (Qle_bool player_power monster_power) in
  let rewards :=
    mkRewards (if player_wins then Monster.gold_reward monster else 0)
              (if player_wins then Monster.experience_reward monster else 0) in
  let damage_taken := if negb player_wins then Monster.damage monster else 0 in
  ret (mkBattleResult player_wins damage_taken rewards (Monster.monster_id monster)).

(** [process_battle] on the binary64 scores. *)
Definition process_battle64 (monster : Monster.t) : M BattleResult :=
  player <- get_player ;;
  player_power <- calculate_power_score64 (EPlayer player) true ;;
  monster_power <- calculate_power_score64 (EMonster monster) false ;;
  let player_wins := negb (Qle_bool player_power monster_power) in
  let rewards :=
    mkRewards (if player_wins then Monster.gold_reward monster else 0)
              (if player_wins then Monster.experience_reward monster else 0) in
  let damage_taken := if negb player_wins then Monster.damage monster else 0 in
  ret (mkBattleResult player_wins damage_taken rewards (Monster.monster_id monster)).

Definition initial_results : RaidResults :=
  mkRaidResults [] [] (mkRewards 0 0) [] false true 0.

Definition set_player_survived (b : bool) (r : RaidResults) : RaidResults :=
  mkRaidResults (monsters_defeated r) (monsters_defeated_by r) (total_rewards r)
    (battles r) (raid_complete r) b (damage_taken r).

Definition set_raid_complete (b : bool) (r : RaidResults) : RaidResults :=
  mkRaidResults (monsters_defeated r) (monsters_defeated_by r) (total_rewards r)
    (battles r) b (player_survived r) (damage_taken r).

Definition append_battle (br : BattleResult) (r : RaidResults) : RaidResults :=
  mkRaidResults (monsters_defeated r) (monsters_defeated_by r) (total_rewards r)
    (battles r ++ [br]) (raid_complete r) (player_survived r) (damage_taken r).

(** The win branch of the loop body. *)
Definition record_win (monster : Monster.t) (br : BattleResult)
    (r : RaidResults) : RaidResults :=
  mkRaidResults
    (monsters_defeated r ++ [Monster.monster_id monster])
    (monsters_defeated_by r)
    (mkRewards (r_gold (total_rewards r) + r_gold (rewards br))
               (r_experience (total_rewards r) + r_experience (rewards br)))
    (battles r) (raid_complete r) (player_survived r) (damage_taken r).

(** The bookkeeping of the loss branch of the loop body. *)
Definition record_loss (monster : Monster.t) (br : BattleResult)
    (r : RaidResults) : RaidResults :=
  mkRaidResults
    (monsters_defeated r)
    (monsters_defeated_by r ++ [Monster.monster_id monster])
    (total_rewards r)
    (battles r) (raid_complete r) (player_survived r)
    (damage_taken r + b_damage_taken br).

Definition set_current_hp (hp : Q) (p : Player.t) : Player.t :=
  Player.mk (Player.discord_id p) (Player.level p) (Player.stats p)
    (Player.equipment p) hp (Player.max_hp p) (Player.gold p)
    (Player.experience p) (Player.current_party_id p).

(** The [for monster in monsters] loop of [process_raid]. *)
Fixpoint raid_loop (monsters : list Monster.t) (raid_results : RaidResults)
    : M RaidResults :=
  match monsters with
  | [] => ret raid_results
  | monster :: rest =>
      player <- get_player ;;
      if Qle_bool (Player.current_hp player) 0
      then ret (set_player_survived false raid_results)
      else
        battle_result <- process_battle monster ;;
        let raid_results := append_battle battle_result raid_results in
        if player_won battle_result
        then raid_loop rest (record_win monster battle_result raid_results)
        else
          player <- get_player ;;
          put_player
            (set_current_hp
               (Player.current_hp player - inject_Z (b_damage_taken battle_result))%Q
               player) ;;;
          ret (record_loss monster battle_result raid_results)
  end.

Definition process_raid (catalog : list Template.t) (tower_level : Z)
    : M RaidResults :=
  player <- get_player ;;
  monsters <- generate_monsters catalog tower_level (Player.level player) ;;
  raid_results <- raid_loop monsters initial_results ;;
  ret (set_raid_complete
         (length (monsters_defeated raid_results) =? length monsters)%nat
         raid_results).

(** ** handle_player_death *)

(** Dictionary access on the equipment entries. *)
Fixpoint dict_get {V} (key : string) (entries : list (string * V)) : option V :=
  match entries with
  | [] => None
  | (k, v) :: rest => if String.eqb k key then Some v else dict_get key rest
  end.

(** Assignment to a key that is present: the entry keeps its place. *)
Definition dict_set {V} (key : string) (v : V) (entries : list (string * V))
    : list (string * V) :=
  map (fun e => if String.eqb (fst e) key then (fst e, v) else e) entries.

Definition set_equipment (eq : list (string * option Item)) (p : Player.t)
    : Player.t :=
  Player.mk (Player.discord_id p) (Player.level p) (Player.stats p)
    eq (Player.current_hp p) (Player.max_hp p) (Player.gold p)
    (Player.experience p) (Player.current_party_id p).

(** [int(x)] on a float: truncation towards zero. *)
Definition int_of_float (x : Q) : Z := Z.quot (Qnum x) (Z.pos (Qden x)).

(** The loop over [player.equipment.items()].  Assigning to the key that is
    being visited changes no other entry, so the entries seen are those of
    the dictionary on entry. *)
Fixpoint drop_loop (entries : list (string * option Item))
    (dropped_items : list DroppedItem) : M (list DroppedItem) :=
  match entries with
  | [] => ret dropped_items
  | (slot, item) :: rest =>
      match item with
      | Some d =>
          if truthy item then
            r <- random_random ;;
            if negb (Qle_bool 0.3 r) then
              player <- get_player ;;
              put_player
                (set_equipment (dict_set slot None (Player.equipment player)) player) ;;;
              drop_loop rest (dropped_items ++ [mkDropped slot d])
            else drop_loop rest dropped_items
          else drop_loop rest dropped_items
      | None => drop_loop rest dropped_items
      end
  end.

Definition handle_player_death : M (list DroppedItem) :=
  player <- get_player ;;
  dropped_items <- drop_loop (Player.equipment player) [] ;;
  player <- get_player ;;
  let gold_loss := int_of_float (inject_Z (Player.gold player) * 0.2)%Q in
  put_player
    (Player.mk (Player.discord_id player) (Player.level player)
       (Player.stats player) (Player.equipment player)
       (Player.max_hp player * 0.1)%Q (Player.max_hp player)
       (Player.gold player - gold_loss) (Player.experience player) None) ;;;
  ret dropped_items.

(** [int(player.gold * 0.2)] in binary64: the gold is converted, the product
    with the literal is rounded, and the result is truncated. *)
Definition gold_loss64 (gold : Z) : Z :=
  int_of_float (float_mul (float_of_int gold) (float_lit 0.2)).

(** ** create_raid_summary *)

(** The line feed of the Python literals. *)
Definition nl : string := String (Ascii.ascii_of_nat 10) EmptyString.

(** One [for monster_id in ...] loop of the summary: a marked line per
    identifier. *)
Definition monster_lines (mark : string) (ids : list string) (summary : string)
    : string :=
  fold_left
    (fun summary monster_id => summary +:+ (mark +:+ " " +:+ monster_id +:+ nl))
    ids summary.

(** The closing line, chosen by the [if]/[elif]/[else] at the end. *)
Definition verdict (results : RaidResults) : string :=
  if raid_complete results then nl +:+ "🏆 Raid Complete! 🏆"
  else if player_survived results
       then nl +:+ "⚠️ Raid Abandoned - Retreated safely"
       else nl +:+ "💀 Raid Failed - Player Defeated".

(** The [.0f] format of an integer: the integer is converted to binary64
    and the nearest integer of that number is printed in decimal. *)
Definition format_0f (n : Z) : string := pretty (rhe (float_of_int n)).

(** Strings are sequences of UTF-8 bytes; [damage_taken] is printed with
    [str], the two rewards with the [.0f] format. *)
Definition create_raid_summary (results : RaidResults) : string :=
  let summary := "🗡️ **Raid Summary** 🗡️" in
  let summary :=
    summary +:+ (nl +:+ "❤️ **Health Lost:** " +:+ pretty (damage_taken results) +:+ nl) in
  let summary := summary +:+ (nl +:+ "**Monsters Defeated:**" +:+ nl) in
  let summary := monster_lines "✅" (monsters_defeated results) summary in
  let summary :=
    match monsters_defeated_by results with
    | [] => summary
    | _ :: _ =>
        monster_lines "❌" (monsters_defeated_by results)
          (summary +:+ (nl +:+ "**Monsters that Defeated You:**" +:+ nl))
    end in
  let summary := summary +:+ (nl +:+ "**Rewards:**" +:+ nl) in
  let summary :=
    summary +:+ ("💰 Gold: " +:+ format_0f (r_gold (total_rewards results)) +:+ nl) in
  let summary :=
    summary
    +:+ ("✨ Experience: " +:+ format_0f (r_experience (total_rewards results))
         +:+ nl) in
  summary +:+ verdict results.

(** ** handle_raid_command *)

(** The [$set] document sent to the players collection, with the
    [discord_id] of its filter. *)
Record PlayerUpdate := mkPlayerUpdate {
  u_discord_id : string;
  u_current_hp : Q;
  u_gold : Z;
  u_experience : Z
}.

(** What a run of the command leaves behind besides the player object: the
    summary it returns, the update it sends to the database, and the
    [dropped_items] entry it adds to the results on defeat. *)
Record CommandOutcome := mkCommandOutcome {
  summary : string;
  db_update : PlayerUpdate;
  dropped_items : option (list DroppedItem)
}.

Definition add_gold (amount : Z) (p : Player.t) : Player.t :=
  Player.mk (Player.discord_id p) (Player.level p) (Player.stats p)
    (Player.equipment p) (Player.current_hp p) (Player.max_hp p)
    (Player.gold p + amount) (Player.experience p) (Player.current_party_id p).

Definition add_experience (amount : Z) (p : Player.t) : Player.t :=
  Player.mk (Player.discord_id p) (Player.level p) (Player.stats p)
    (Player.equipment p) (Player.current_hp p) (Player.max_hp p)
    (Player.gold p) (Player.experience p + amount) (Player.current_party_id p).

Definition handle_raid_command (catalog : list Template.t) (tower_level : Z)
    : M CommandOutcome :=
  results <- process_raid catalog tower_level ;;
  player <- get_player ;;
  put_player (add_gold (r_gold (total_rewards results)) player) ;;;
  player <- get_player ;;
  put_player (add_experience (r_experience (total_rewards results)) player) ;;;
  dropped <-
    (if negb (player_survived results)
     then dropped_items <- handle_player_death ;; ret (Some dropped_items)
     else ret None) ;;
  player <- get_player ;;
  let update :=
    mkPlayerUpdate (Player.discord_id player) (Player.current_hp player)
      (Player.gold player) (Player.experience player) in
  ret (mkCommandOutcome (create_raid_summary results) update dropped).

(** ** Vocabulary of the specification *)

(** The score a call returns in a given world (0 when it raises). *)
Definition power_at (e : Entity) (is_player : bool) (w : World) : Q :=
  match fst (calculate_power_score e is_player w) with
  | Ok score => score
  | Raise _ => 0%Q
  end.

(** A computation that never assigns to the player object. *)
Definition preserves_player {A} (m : M A) : Prop :=
  forall w, w_player (snd (m w)) = w_player w.

(** The exception of [random.randint] on an empty range. *)
Definition too_few : Exn := ValueError "empty range for randrange()".

(** The world after the loss branch: the damage is taken from the player's
    current HP. *)
Definition lose_hp (br : BattleResult) (w : World) : World :=
  mkWorld
    (set_current_hp
       (Player.current_hp (w_player w) - inject_Z (b_damage_taken br))%Q
       (w_player w))
    (w_rng w).

(** [raid_outcome w res monsters res' w']: started in world [w] with
    accumulator [res], the loop over [monsters] ends normally with [res'] in
    world [w']. *)
Inductive raid_outcome :
  World -> RaidResults -> list Monster.t -> RaidResults -> World -> Prop :=
| raid_cleared w res :
    raid_outcome w res [] res w
| raid_stale_hp w res monster rest :
    Qle_bool (Player.current_hp (w_player w)) 0 = true ->
    raid_outcome w res (monster :: rest) (set_player_survived false res) w
| raid_win w res monster rest br res' w' :
    Qle_bool (Player.current_hp (w_player w)) 0 = false ->
    process_battle monster w = (Ok br, advance (advance w)) ->
    player_won br = true ->
    raid_outcome (advance (advance w))
      (record_win monster br (append_battle br res)) rest res' w' ->
    raid_outcome w res (monster :: rest) res' w'
| raid_loss w res monster rest br :
    Qle_bool (Player.current_hp (w_player w)) 0 = false ->
    process_battle monster w = (Ok br, advance (advance w)) ->
    player_won br = false ->
    raid_outcome w res (monster :: rest)
      (record_loss monster br (append_battle br res))
      (lose_hp br (advance (advance w))).

(** The equipment after the slots of the dropped items were set to
    [None], one after the other. *)
Definition clear_slots (dropped : list DroppedItem)
    (equipment : list (string * option Item)) : list (string * option Item) :=
  fold_left (fun eq d => dict_set (d_slot d) None eq) dropped equipment.

(** Sum of a list of integers. *)
Definition Zsum (l : list Z) : Z := fold_right Z.add 0 l.

(** [won_against monster br]: [br] is the result of a battle won against
    [monster]. *)
Definition won_against (monster : Monster.t) (br : BattleResult) : Prop :=
  player_won br = true /\
  b_monster_id br = Monster.monster_id monster /\
  rewards br = mkRewards (Monster.gold_reward monster)
                 (Monster.experience_reward monster) /\
  b_damage_taken br = 0.

(** [lost_against monster br]: [br] is the result of a battle lost against
    [monster]. *)
Definition lost_against (monster : Monster.t) (br : BattleResult) : Prop :=
  player_won br = false /\
  b_monster_id br = Monster.monster_id monster /\
  rewards br = mkRewards 0 0 /\
  b_damage_taken br = Monster.damage monster.

(** One marked line per identifier, in the order of the list. *)
Definition marked_lines (mark : string) (ids : list string) : string :=
  foldr (fun monster_id rest => mark +:+ " " +:+ monster_id +:+ nl +:+ rest)
    EmptyString ids.

(** What one equipment slot adds to the bonus. *)
Definition slot_power (entry : string * option Item) : Q :=
  match snd entry with
  | Some d => default 0%Q (d !! "power")
  | None => 0%Q
  end.

Fixpoint Qsum (l : list Q) : Q :=
  match l with
  | [] => 0%Q
  | x :: l => (x + Qsum l)%Q
  end.

(** The mindset the generator hands out in a given world. *)
Definition mindset_of (w : World) : Q :=
  (0 + (10 - 0) * (Z.of_N (peek w mod 2 ^ 53) # 2 ^ 53))%Q.

(** The body of the loop of [equipment_bonus64]. *)
Definition bonus_step64 (bonus : Q) (entry : string * option Item) : Q :=
  match snd entry with
  | Some d =>
      if truthy (Some d) then float_add bonus (default 0%Q (d !! "power"))
      else bonus
  | None => bonus
  end.

(** Equipment whose ['power'] attributes are whole numbers with absolute
    values summing to at most 2^53. *)
Definition whole_powers (equipment : list (string * option Item)) : Prop :=
  Forall (fun entry => (slot_power entry == inject_Z (Qfloor (slot_power entry)))%Q)
    equipment /\
  Zsum (map (fun entry => Z.abs (Qfloor (slot_power entry))) equipment) <= 2 ^ 53.

(** The binary64 mindset the generator hands out in a given world. *)
Definition mindset64_of (w : World) : Q :=
  float_add (float_of_int 0)
    (float_mul (float_of_int (10 - 0)) (Z.of_N (peek w mod 2 ^ 53) # 2 ^ 53)).

(** The equipment entry a dropped-item record speaks of. *)
Definition dropped_entry (d : DroppedItem) : string * option Item :=
  (d_slot d, Some (d_item d)).

(** The occupied slots: those the loop draws for. *)
Definition occupied (equipment : list (string * option Item))
    : list (string * option Item) :=
  List.filter (fun entry => truthy (snd entry)) equipment.

(** The player object after the two reward assignments. *)
Definition rewarded (results : RaidResults) (p : Player.t) : Player.t :=
  add_experience (r_experience (total_rewards results))
    (add_gold (r_gold (total_rewards results)) p).

(** The update document for a player. *)
Definition update_of (p : Player.t) : PlayerUpdate :=
  mkPlayerUpdate (Player.discord_id p) (Player.current_hp p) (Player.gold p)
    (Player.experience p).

Definition failed_line : string := nl +:+ "💀 Raid Failed - Player Defeated".
Definition abandoned_line : string := nl +:+ "⚠️ Raid Abandoned - Retreated safely".
Definition complete_line : string := nl +:+ "🏆 Raid Complete! 🏆".

(** ** Concrete players, monsters, catalogs and worlds *)

(** A player whose stats mapping has no "agility" entry. *)
Definition player_no_agility : Player.t :=
  Player.mk "u1" 3 (list_to_map [("strength", 10); ("vitality", 7)])
    [] 50%Q 100%Q 100 0 None.

(** A world whose generator only ever draws 0. *)
Definition zero_world (p : Player.t) : World :=
  mkWorld p (mkRng (fun _ => 0%N) 0).

(** A world whose generator only ever draws the largest raw value. *)
Definition top_world (p : Player.t) : World :=
  mkWorld p (mkRng (fun _ => (2 ^ 53 - 1)%N) 0).

(** A player whose base score is 3 and a monster whose base score is 2. *)
Definition squire : Player.t :=
  Player.mk "u2" 0
    (list_to_map [("strength", 2); ("agility", 0); ("vitality", 0)])
    [] 50%Q 100%Q 0 0 None.

Definition imp : Monster.t :=
  Monster.mk "E_imp" "Imp" 0 "E" "generic" 50 0 2 15 10 [].

(** The smallest raw draw first, then the largest. *)
Definition low_high_world : World :=
  mkWorld squire (mkRng (fun n => nth n [0; 2 ^ 53 - 1]%N 0%N) 0).

(** Three items whose powers are the literals 0.1, 0.2 and 0.3. *)
Definition tenths : list (string * option Item) :=
  [("weapon", Some (list_to_map [("power", float_lit 0.1)]));
   ("armor", Some (list_to_map [("power", float_lit 0.2)]));
   ("ring", Some (list_to_map [("power", float_lit 0.3)]))].

Definition slime : Monster.t :=
  Monster.mk "E_slime" "Slime" 0 "E" "generic" 50 0 2 15 10 [].

Definition slime_base : Q :=
  Eval vm_compute in
    match base_score (EMonster slime) false with Ok b => b | Raise _ => 0%Q end.

Definition hero : Player.t :=
  Player.mk "u1" 3
    (list_to_map [("strength", 10); ("agility", 5); ("vitality", 7)])
    [("weapon", Some (list_to_map [("power", 4.0%Q)])); ("armor", None);
     ("ring", Some ∅)]
    50%Q 100%Q 100 0 (Some "party").

Definition hero_power : Q :=
  Eval vm_compute in power_at (EPlayer hero) true (zero_world hero).

Definition slime_power : Q :=
  Eval vm_compute in power_at (EMonster slime) false (advance (zero_world hero)).

(** Catalog templates that all carry the identifier "E_rat". *)
Definition rat (lvl : Z) : Template.t :=
  Template.mk "E_rat" "Giant Rat" lvl None None None None None None None.

Definition small_catalog : list Template.t :=
  [Template.mk "E_rat" "Giant Rat" 1 None None None None None None None;
   Template.mk "E_bat" "Cave Bat" 2 None None (Some 4) None None None None;
   Template.mk "D_wolf" "Dire Wolf" 12 None None None None None None None;
   Template.mk "E_slime" "Slime" 1 None (Some 30) None None None None None;
   Template.mk "E_toad" "Toad" 3 None None None None None None None].

Definition fallen_hero : Player.t := set_current_hp 0%Q hero.

Definition small_catalog_pick : list Monster.t :=
  Eval vm_compute in
    match fst (generate_monsters small_catalog 5 3 (zero_world fallen_hero)) with
    | Ok monsters => monsters
    | Raise _ => []
    end.

(** A catalog in which two templates share the identifier "E_rat". *)
Definition twin_catalog : list Template.t :=
  [Template.mk "E_rat" "Giant Rat" 1 None None None None None None None;
   Template.mk "E_bat" "Cave Bat" 2 None None None None None None None;
   Template.mk "E_rat" "Rat King" 50 None None None None None None None].

(** The draws make the selection keep the catalog order. *)
Definition twin_world : World :=
  mkWorld hero (mkRng (fun n => nth n [0; 0; 1; 0]%N 0%N) 0).

Definition twin_monsters : list Monster.t :=
  Eval vm_compute in
    match fst (generate_monsters twin_catalog 1 (Player.level hero) twin_world) with
    | Ok monsters => monsters
    | Raise _ => []
    end.

Definition twin_results : RaidResults :=
  Eval vm_compute in
    match fst (process_raid twin_catalog 1 twin_world) with
    | Ok res => res
    | Raise _ => initial_results
    end.

Definition small_raid_results : RaidResults :=
  Eval vm_compute in
    match fst (process_raid small_catalog 5 (zero_world hero)) with
    | Ok res => res
    | Raise _ => initial_results
    end.

Definition twin_world_after : World :=
  Eval vm_compute in snd (process_raid twin_catalog 1 twin_world).

Definition small_raid_world_after : World :=
  Eval vm_compute in snd (process_raid small_catalog 5 (zero_world hero)).

Definition pair_catalog : list Template.t :=
  [Template.mk "E_rat" "Giant Rat" 1 None None None None None None None;
   Template.mk "D_wolf" "Dire Wolf" 12 None None None None None None None;
   Template.mk "E_bat" "Cave Bat" 2 None None None None None None None].

Definition bat : Monster.t :=
  Monster.mk "E_bat" "Cave Bat" 2 "E" "generic" 50 5 3 15 10 [].


Definition camp_world : World :=
  Eval vm_compute in snd (handle_player_death (zero_world hero)).

Definition camp_dropped : list DroppedItem :=
  Eval vm_compute in
    match fst (handle_player_death (zero_world hero)) with
    | Ok dropped => dropped
    | Raise _ => []
    end.

Definition camp_raid_results : RaidResults :=
  Eval vm_compute in
    match fst (process_raid small_catalog 5 camp_world) with
    | Ok res => res
    | Raise _ => initial_results
    end.

Definition camp_raid_world : World :=
  Eval vm_compute in snd (process_raid small_catalog 5 camp_world).



(** * Properties *)

(** ** The random generator *)

Lemma random_random_spec (w : World) :
  exists r : Q, random_random w = (Ok r, advance w) /\ (0 <= r)%Q /\ (r < 1)%Q.
Proof.
  eexists. split; [reflexivity|].
  pose proof (N.mod_upper_bound (peek w) (2 ^ 53)%N) as Hlt.
  assert ((2 ^ 53)%N <> 0%N) as Hnz by (vm_compute; discriminate).
  specialize (Hlt Hnz).
  unfold Qle, Qlt. simpl Qnum. simpl Qden.
  change (Z.pos (2 ^ 53)) with (Z.of_N (2 ^ 53)%N).
  generalize dependent (2 ^ 53)%N. intros n. generalize (peek w mod n)%N.
  intros; lia.
Qed.

Lemma random_uniform_0_10 (w : World) :
  exists m : Q,
    random_uniform 0 10 w = (Ok m, advance w) /\ (0 <= m)%Q /\ (m < 10)%Q.
Proof.
  destruct (random_random_spec w) as (r & Hr & H0 & H1).
  exists (0 + (10 - 0) * r)%Q.
  unfold random_uniform, bind. rewrite Hr. unfold ret.
  split; [reflexivity|]. split; lra.
Qed.

(** ** Binary64 rounding

    [rn] is monotone, commutes with negation, fixes the binary64 numbers and
    yields nothing else. *)

Section Binary64Theory.
Local Open Scope Q_scope.

Lemma pow2_pos (e : Z) : 0 < pow2 e.
Proof. apply Qpower_0_lt. reflexivity. Qed.

Lemma pow2_add (e f : Z) : pow2 (e + f) == pow2 e * pow2 f.
Proof. apply Qpower_plus. discriminate. Qed.

Lemma pow2_opp (e : Z) : pow2 (- e) == / pow2 e.
Proof. apply Qpower_opp. Qed.

Lemma pow2_le (e f : Z) : (e <= f)%Z -> pow2 e <= pow2 f.
Proof. intros H. apply Qpower_le_compat_l; [exact H | discriminate]. Qed.

Lemma pow2_lt (e f : Z) : (e < f)%Z -> pow2 e < pow2 f.
Proof. intros H. apply Qpower_lt_compat_l; [exact H | reflexivity]. Qed.

Lemma pow2_lt_inv (e f : Z) : pow2 e < pow2 f -> (e < f)%Z.
Proof. intros H. eapply Qpower_lt_compat_l_inv; [exact H | reflexivity]. Qed.

Lemma pow2_Z (e : Z) : (0 <= e)%Z -> pow2 e == inject_Z (2 ^ e).
Proof. intros H. symmetry. apply (Zpower_Qpower 2 e H). Qed.

Lemma pow2_succ (e : Z) : pow2 (e + 1) == 2 * pow2 e.
Proof. rewrite pow2_add. unfold pow2 at 2. simpl. ring. Qed.

Lemma div_pow2 (x : Q) (c : Z) : x / pow2 c == x * pow2 (- c).
Proof. unfold Qdiv. rewrite pow2_opp. reflexivity. Qed.

Lemma pow2_cancel (x : Q) (c : Z) : x / pow2 c * pow2 c == x.
Proof. field. pose proof (pow2_pos c). lra. Qed.

Lemma mag_spec (x : Q) : 0 < x -> pow2 (mag x) <= x /\ x < pow2 (mag x + 1).
Proof.
  intros Hx. destruct x as [n d]. unfold mag. cbn [Qnum Qden].
  assert (0 < n)%Z as Hn by (unfold Qlt in Hx; simpl in Hx; lia).
  pose proof (Z.log2_spec n Hn) as [Ha Ha'].
  pose proof (Z.log2_spec (Z.pos d) (Pos2Z.is_pos d)) as [Hb Hb'].
  pose proof (Z.log2_nonneg n) as Ha0.
  pose proof (Z.log2_nonneg (Z.pos d)) as Hb0.
  set (a := Z.log2 n) in *. set (b := Z.log2 (Z.pos d)) in *.
  set (x := n # d) in *.
  assert (x * inject_Z (Z.pos d) == inject_Z n) as Hxd.
  { subst x. rewrite (Qmake_Qdiv n d). field. discriminate. }
  assert (pow2 a <= inject_Z n) as HA by (rewrite pow2_Z, <- Zle_Qle; assumption).
  assert (inject_Z n < 2 * pow2 a) as HA'.
  { rewrite <- pow2_succ, pow2_Z, <- Zlt_Qlt by lia.
    replace (a + 1)%Z with (Z.succ a) by lia. exact Ha'. }
  assert (pow2 b <= inject_Z (Z.pos d)) as HB by (rewrite pow2_Z, <- Zle_Qle; assumption).
  assert (inject_Z (Z.pos d) < 2 * pow2 b) as HB'.
  { rewrite <- pow2_succ, pow2_Z, <- Zlt_Qlt by lia.
    replace (b + 1)%Z with (Z.succ b) by lia. exact Hb'. }
  pose proof (pow2_pos a) as HAp. pose proof (pow2_pos b) as HBp.
  assert (pow2 (a - b) * pow2 b == pow2 a) as He.
  { rewrite <- pow2_add. replace (a - b + b)%Z with a by lia. reflexivity. }
  pose proof (pow2_pos (a - b)) as HEp.
  generalize dependent (inject_Z n). generalize dependent (inject_Z (Z.pos d)).
  intros D HB HB' N HxD HA HA'.
  assert (x < 2 * pow2 (a - b)) as Hup.
  { apply Qnot_le_lt. intros Hc.
    assert (0 <= (x - 2 * pow2 (a - b)) * pow2 b) by (apply Qmult_le_0_compat; lra).
    assert (0 <= x * (D - pow2 b)) by (apply Qmult_le_0_compat; lra).
    nra. }
  assert (pow2 (a - b) < 2 * x) as Hlow.
  { apply Qnot_le_lt. intros Hc.
    assert (0 <= (pow2 (a - b) - 2 * x) * pow2 b) by (apply Qmult_le_0_compat; lra).
    assert (0 < x * (2 * pow2 b - D)) by (apply Qmult_lt_0_compat; lra).
    nra. }
  destruct (Qle_bool (pow2 (a - b)) x) eqn:Hle.
  - apply Qle_bool_iff in Hle. rewrite pow2_succ. split; lra.
  - assert (~ pow2 (a - b) <= x) as Hnle
        by (intros Hc; apply Qle_bool_iff in Hc; congruence).
    apply Qnot_le_lt in Hnle.
    replace (a - b - 1 + 1)%Z with (a - b)%Z by lia.
    assert (pow2 (a - b) == 2 * pow2 (a - b - 1)) as Hhalf.
    { rewrite <- pow2_succ. replace (a - b - 1 + 1)%Z with (a - b)%Z by lia.
      reflexivity. }
    split; lra.
Qed.

Lemma mag_mono (x y : Q) : 0 < x -> x <= y -> (mag x <= mag y)%Z.
Proof.
  intros Hx Hxy.
  destruct (mag_spec x Hx) as [Hlo _].
  destruct (mag_spec y) as [_ Hhi]; [lra|].
  assert (pow2 (mag x) < pow2 (mag y + 1)) as H by lra.
  apply pow2_lt_inv in H. lia.
Qed.

Lemma cexp_mono (x y : Q) : 0 < x -> x <= y -> (cexp x <= cexp y)%Z.
Proof. intros Hx Hxy. unfold cexp. pose proof (mag_mono x y Hx Hxy). lia. Qed.

Lemma rhe_cases (s : Q) :
  (rhe s = Qfloor s /\ s - inject_Z (Qfloor s) <= 1 # 2) \/
  (rhe s = (Qfloor s + 1)%Z /\ 1 # 2 <= s - inject_Z (Qfloor s)).
Proof.
  unfold rhe.
  destruct (s - inject_Z (Qfloor s) ?= 1 # 2) eqn:Hc.
  - apply Qeq_alt in Hc. destruct (Z.even (Qfloor s)); [left | right]; split;
      try reflexivity; lra.
  - apply Qlt_alt in Hc. left. split; [reflexivity | lra].
  - apply Qgt_alt in Hc. right. split; [reflexivity | lra].
Qed.

Lemma rhe_mono (s t : Q) : s <= t -> (rhe s <= rhe t)%Z.
Proof.
  intros Hst. pose proof (Qfloor_resp_le s t Hst) as Hf.
  destruct (Z.eq_dec (Qfloor s) (Qfloor t)) as [Heq | Hne].
  - unfold rhe. rewrite Heq.
    destruct (s - inject_Z (Qfloor t) ?= 1 # 2) eqn:Hs;
      destruct (t - inject_Z (Qfloor t) ?= 1 # 2) eqn:Ht;
      first [apply Qeq_alt in Hs | apply Qlt_alt in Hs | apply Qgt_alt in Hs];
      first [apply Qeq_alt in Ht | apply Qlt_alt in Ht | apply Qgt_alt in Ht];
      try (exfalso; lra); try lia.
    all: destruct (Z.even (Qfloor t)); lia.
  - destruct (rhe_cases s) as [[-> _] | [-> _]];
      destruct (rhe_cases t) as [[-> _] | [-> _]]; lia.
Qed.

Lemma rhe_Z (n : Z) : rhe (inject_Z n) = n.
Proof.
  pose proof (rhe_cases (inject_Z n)) as H. rewrite Qfloor_Z in H.
  destruct H as [[-> _] | [_ H]]; [reflexivity | exfalso; lra].
Qed.

Lemma rhe_comp (s t : Q) : s == t -> rhe s = rhe t.
Proof.
  intros H. apply Z.le_antisymm; apply rhe_mono; lra.
Qed.

Lemma rn_pos_mono (x y : Q) : 0 < x -> x <= y -> rn_pos x <= rn_pos y.
Proof.
  intros Hx Hxy. unfold rn_pos.
  pose proof (cexp_mono x y Hx Hxy) as Hc.
  pose proof (pow2_pos (cexp x)) as Hpx. pose proof (pow2_pos (cexp y)) as Hpy.
  destruct (Z.eq_dec (cexp x) (cexp y)) as [Heq | Hne].
  - rewrite Heq. apply Qmult_le_compat_r; [|lra].
    rewrite <- Zle_Qle. apply rhe_mono.
    apply Qmult_le_compat_r; [exact Hxy|]. apply Qlt_le_weak, Qinv_lt_0_compat.
    exact Hpy.
  - assert (cexp y = mag y - 52)%Z as Hcy by (unfold cexp in *; lia).
    assert (mag x < mag y)%Z as Hm by (unfold cexp in *; lia).
    destruct (mag_spec x Hx) as [_ Hxhi].
    destruct (mag_spec y) as [Hylo _]; [lra|].
    pose proof (pow2_le (mag x + 1) (mag y)) as Hb. specialize (Hb ltac:(lia)).
    apply Qle_trans with (pow2 (mag y)).
    + assert (pow2 (mag y) == inject_Z (2 ^ (mag y - cexp x)) * pow2 (cexp x)) as ->.
      { rewrite <- pow2_Z by (unfold cexp in *; lia). rewrite <- pow2_add.
        replace (mag y - cexp x + cexp x)%Z with (mag y) by lia. reflexivity. }
      apply Qmult_le_compat_r; [|lra].
      rewrite <- Zle_Qle.
      rewrite <- (rhe_Z (2 ^ (mag y - cexp x))). apply rhe_mono.
      rewrite <- pow2_Z by (unfold cexp in *; lia).
      apply Qle_shift_div_r; [exact Hpx|].
      rewrite <- pow2_add.
      replace (mag y - cexp x + cexp x)%Z with (mag y) by lia. lra.
    + assert (pow2 (mag y) == inject_Z (2 ^ 52) * pow2 (cexp y)) as ->.
      { rewrite <- pow2_Z by lia. rewrite <- pow2_add.
        replace (52 + cexp y)%Z with (mag y) by lia. reflexivity. }
      apply Qmult_le_compat_r; [|lra].
      rewrite <- Zle_Qle.
      rewrite <- (rhe_Z (2 ^ 52)) at 1. apply rhe_mono.
      rewrite <- pow2_Z by lia.
      apply Qle_shift_div_l; [exact Hpy|].
      rewrite <- pow2_add.
      replace (52 + cexp y)%Z with (mag y) by lia. exact Hylo.
Qed.

Lemma rn_pos_nonneg (x : Q) : 0 < x -> 0 <= rn_pos x.
Proof.
  intros Hx. unfold rn_pos. pose proof (pow2_pos (cexp x)) as Hp.
  apply Qmult_le_0_compat; [|lra].
  change 0 with (inject_Z 0). rewrite <- Zle_Qle.
  rewrite <- (rhe_Z 0). apply rhe_mono.
  apply Qle_shift_div_l; [exact Hp | change (inject_Z 0) with 0; lra].
Qed.

Lemma rn_unfold (x : Q) :
  rn x == match x ?= 0 with
          | Eq => 0
          | Gt => rn_pos x
          | Lt => - rn_pos (- x)
          end.
Proof. unfold rn. apply Qred_correct. Qed.

Lemma rn_of_pos (x : Q) : 0 < x -> rn x == rn_pos x.
Proof.
  intros H. rewrite rn_unfold.
  destruct (x ?= 0) eqn:E; [apply Qeq_alt in E | apply Qlt_alt in E | reflexivity];
    exfalso; lra.
Qed.

Lemma rn_of_neg (x : Q) : x < 0 -> rn x == - rn_pos (- x).
Proof.
  intros H. rewrite rn_unfold.
  destruct (x ?= 0) eqn:E; [apply Qeq_alt in E | reflexivity | apply Qgt_alt in E];
    exfalso; lra.
Qed.

Lemma rn_of_zero (x : Q) : x == 0 -> rn x == 0.
Proof.
  intros H. rewrite rn_unfold.
  destruct (x ?= 0) eqn:E; [reflexivity | apply Qlt_alt in E | apply Qgt_alt in E];
    exfalso; lra.
Qed.

(** Rounding is monotone. *)
Lemma rn_mono (x y : Q) : x <= y -> rn x <= rn y.
Proof.
  intros Hxy.
  destruct (Q_dec x 0) as [[Hx | Hx] | Hx]; destruct (Q_dec y 0) as [[Hy | Hy] | Hy];
    try (exfalso; lra).
  - rewrite (rn_of_neg x Hx), (rn_of_neg y Hy).
    assert (rn_pos (- y) <= rn_pos (- x)) by (apply rn_pos_mono; lra). lra.
  - rewrite (rn_of_neg x Hx), (rn_of_pos y Hy).
    pose proof (rn_pos_nonneg (- x)). pose proof (rn_pos_nonneg y). lra.
  - rewrite (rn_of_neg x Hx), (rn_of_zero y Hy).
    pose proof (rn_pos_nonneg (- x)). lra.
  - rewrite (rn_of_pos x Hx), (rn_of_pos y Hy). apply rn_pos_mono; assumption.
  - rewrite (rn_of_zero x Hx), (rn_of_pos y Hy). apply rn_pos_nonneg. exact Hy.
  - rewrite (rn_of_zero x Hx), (rn_of_zero y Hy). lra.
Qed.

Lemma rn_comp (x y : Q) : x == y -> rn x == rn y.
Proof. intros H. apply Qle_antisym; apply rn_mono; lra. Qed.


Lemma pow2_le_inv (e f : Z) : pow2 e <= pow2 f -> (e <= f)%Z.
Proof.
  intros H. destruct (Z_le_gt_dec e f) as [Hle | Hgt]; [exact Hle|].
  exfalso. assert (pow2 f < pow2 e) by (apply pow2_lt; lia). lra.
Qed.

Lemma rn_pos_comp (x y : Q) : 0 < x -> x == y -> rn_pos x == rn_pos y.
Proof. intros Hx H. apply Qle_antisym; apply rn_pos_mono; lra. Qed.

(** Rounding commutes with negation. *)
Lemma rn_opp (x : Q) : rn (- x) == - rn x.
Proof.
  destruct (Q_dec x 0) as [[Hx | Hx] | Hx].
  - rewrite (rn_of_neg x Hx), (rn_of_pos (- x)) by lra. lra.
  - rewrite (rn_of_pos x Hx), (rn_of_neg (- x)) by lra.
    rewrite (rn_pos_comp (- - x) x); lra.
  - rewrite (rn_of_zero x Hx), (rn_of_zero (- x)); lra.
Qed.

Lemma rn_pos_representable (x : Q) (n c : Z) :
  (0 < n <= 2 ^ 53)%Z -> (-1074 <= c)%Z -> x == inject_Z n * pow2 c ->
  rn_pos x == x.
Proof.
  intros Hn Hc Hx.
  pose proof (pow2_pos c) as Hpc.
  assert (0 < inject_Z n) as Hn0
      by (change 0 with (inject_Z 0); rewrite <- Zlt_Qlt; lia).
  assert (inject_Z n <= pow2 53) as Hn53
      by (rewrite pow2_Z, <- Zle_Qle by lia; lia).
  assert (0 < x) as Hpos by (rewrite Hx; apply Qmult_lt_0_compat; assumption).
  destruct (mag_spec x Hpos) as [Hlo Hhi].
  assert (x <= pow2 (53 + c)) as Hxu.
  { rewrite Hx, pow2_add. apply Qmult_le_compat_r; lra. }
  assert (mag x <= 53 + c)%Z as He by (apply pow2_le_inv; lra).
  pose proof (pow2_pos (cexp x)) as Hpe.
  assert (exists k : Z, x / pow2 (cexp x) == inject_Z k) as [k Hk].
  { assert (cexp x = Z.max (mag x - 52) (-1074)) as Hce by reflexivity.
    generalize dependent (cexp x). intros e Hpe He'.
    destruct (Z_le_gt_dec e c) as [Hle | Hgt].
    - exists (n * 2 ^ (c - e))%Z.
      rewrite inject_Z_mult, <- pow2_Z by lia.
      rewrite Hx, div_pow2, <- Qmult_assoc, <- pow2_add.
      replace (c + - e)%Z with (c - e)%Z by lia. reflexivity.
    - assert (mag x = 53 + c)%Z as Hm by lia.
      assert (e = c + 1)%Z as Hce by lia.
      assert (pow2 53 <= inject_Z n) as Hn53'.
      { rewrite Hm, pow2_add in Hlo.
        assert (pow2 53 * pow2 c <= inject_Z n * pow2 c) as Hlo' by lra.
        apply Qmult_le_r in Hlo'; assumption. }
      exists (2 ^ 52)%Z. rewrite <- pow2_Z by lia.
      assert (inject_Z n == pow2 53) as Hn' by lra.
      rewrite Hx, Hn', Hce, div_pow2, <- !pow2_add.
      replace (53 + c + - (c + 1))%Z with 52%Z by lia. reflexivity. }
  unfold rn_pos. rewrite (rhe_comp _ _ Hk), rhe_Z, <- Hk. apply pow2_cancel.
Qed.

Lemma rn_pos_is_representable (x : Q) :
  0 < x ->
  exists n : Z, (0 <= n <= 2 ^ 53)%Z /\ (-1074 <= cexp x)%Z /\
                rn_pos x = inject_Z n * pow2 (cexp x).
Proof.
  intros Hx. exists (rhe (x / pow2 (cexp x))).
  pose proof (pow2_pos (cexp x)) as Hpe.
  destruct (mag_spec x Hx) as [_ Hhi].
  split; [|split; [unfold cexp; lia | reflexivity]]. split.
  - rewrite <- (rhe_Z 0). apply rhe_mono.
    apply Qle_shift_div_l; [exact Hpe | change (inject_Z 0) with 0; lra].
  - rewrite <- (rhe_Z (2 ^ 53)). apply rhe_mono.
    rewrite <- pow2_Z by lia.
    apply Qle_shift_div_r; [exact Hpe|].
    rewrite <- pow2_add.
    assert (pow2 (mag x + 1) <= pow2 (53 + cexp x))
      by (apply pow2_le; unfold cexp; lia).
    lra.
Qed.

(** A binary64 number rounds to itself. *)
Lemma rn_representable (x : Q) : representable x -> rn x == x.
Proof.
  intros (n & c & Hn & Hc & Hx).
  pose proof (pow2_pos c) as Hpc.
  destruct (Z.lt_trichotomy n 0) as [Hneg | [-> | Hpos]].
  - assert (inject_Z n < 0) as Hn0
        by (change 0 with (inject_Z 0); rewrite <- Zlt_Qlt; lia).
    assert (x < 0) as Hx0.
    { rewrite Hx. assert (0 < (- inject_Z n) * pow2 c)
        by (apply Qmult_lt_0_compat; lra). lra. }
    rewrite (rn_of_neg x Hx0).
    rewrite (rn_pos_representable (- x) (- n) c); [lra | lia | lia|].
    rewrite Hx, inject_Z_opp. ring.
  - assert (x == 0) as Hx0 by (rewrite Hx; change (inject_Z 0) with 0; ring).
    rewrite (rn_of_zero x Hx0). lra.
  - assert (0 < inject_Z n) as Hn0
        by (change 0 with (inject_Z 0); rewrite <- Zlt_Qlt; lia).
    assert (0 < x) as Hx0 by (rewrite Hx; apply Qmult_lt_0_compat; assumption).
    rewrite (rn_of_pos x Hx0).
    apply (rn_pos_representable x n c); [lia | lia | exact Hx].
Qed.

(** Rounding yields a binary64 number. *)
Lemma rn_is_representable (x : Q) : representable (rn x).
Proof.
  destruct (Q_dec x 0) as [[Hx | Hx] | Hx].
  - destruct (rn_pos_is_representable (- x)) as (n & Hn & Hc & Hr); [lra|].
    exists (- n)%Z, (cexp (- x)). split; [lia|]. split; [exact Hc|].
    rewrite (rn_of_neg x Hx), Hr, inject_Z_opp. ring.
  - destruct (rn_pos_is_representable x Hx) as (n & Hn & Hc & Hr).
    exists n, (cexp x). split; [lia|]. split; [exact Hc|].
    rewrite (rn_of_pos x Hx), Hr. reflexivity.
  - exists 0%Z, 0%Z. split; [lia|]. split; [lia|].
    rewrite (rn_of_zero x Hx). change (inject_Z 0) with 0. ring.
Qed.

Lemma rn_idempotent (x : Q) : rn (rn x) == rn x.
Proof. apply rn_representable, rn_is_representable. Qed.

(** Integers of at most 53 bits are binary64 numbers. *)
Lemma representable_Z (z : Z) : (Z.abs z <= 2 ^ 53)%Z -> representable (inject_Z z).
Proof.
  intros Hz. exists z, 0%Z. split; [exact Hz|]. split; [lia|].
  unfold pow2. simpl. ring.
Qed.

Lemma rn_Z (z : Z) : (Z.abs z <= 2 ^ 53)%Z -> rn (inject_Z z) == inject_Z z.
Proof. intros Hz. apply rn_representable, representable_Z, Hz. Qed.

#[export] Instance rn_Proper : Proper (Qeq ==> Qeq) rn.
Proof. intros x y H. apply rn_comp, H. Qed.

End Binary64Theory.

(** On every pair of the samples the four operations of the model give what
    the hardware gives. *)
Example binary64_agrees_with_hardware :
  forallb (fun f => forallb (agrees_with_hardware f) hardware_samples)
    hardware_samples = true.
Proof. vm_compute. reflexivity. Qed.

(** The expressions of the source on which rounding shows, evaluated by the
    hardware: the literal 0.2, the conversion of 2^53 + 1, the gold penalty
    of 100000000000000007, the sums of 0.1, 0.2 and 0.3 in both orders, and
    the score of a base of 47 at the largest draw. *)
Example source_expressions_on_hardware :
  let i := hardware_int in
  let tenth n := PrimFloat.div (i n) (i 10) in
  let top := PrimFloat.div (i (2 ^ 53 - 1)) (i (2 ^ 53)) in
  map Q_of_float
    [tenth 2;
     i (2 ^ 53 + 1);
     PrimFloat.mul (i 100000000000000007) (tenth 2);
     PrimFloat.add (PrimFloat.add (PrimFloat.add (i 0) (tenth 1)) (tenth 2)) (tenth 3);
     PrimFloat.add (PrimFloat.add (PrimFloat.add (i 0) (tenth 3)) (tenth 2)) (tenth 1);
     PrimFloat.mul (i 47)
       (PrimFloat.add (i 1)
          (PrimFloat.div (PrimFloat.add (i 0) (PrimFloat.mul (i 10) top)) (i 20)))]
  = [float_lit 0.2;
     float_of_int (2 ^ 53 + 1);
     20000000000000000%Q;
     float_add (float_lit 0.6) (1 # 2 ^ 53);
     float_lit 0.6;
     (141 # 2)%Q].
Proof. vm_compute. reflexivity. Qed.

(** ** Tier mapping *)

(** C1, as stated, fails: progression level 61 resolves to tier "E", the
    value [current_rarity] holds when no range matches, not to "S". *)
Lemma tier_61_is_E_not_S :
  current_rarity 61 = "E" /\ current_rarity 61 <> "S".
Proof. split; [reflexivity | discriminate]. Qed.

(** C1, amended: the first inclusive upper bound that admits the level
    decides the tier (E up to 10, D up to 20, C up to 30, B up to 40, A up to
    50, S up to 60), and every level above 60 resolves to "E". *)
Theorem tier_mapping (tower_level : Z) :
  (tower_level <= 10 -> current_rarity tower_level = "E") /\
  (10 < tower_level <= 20 -> current_rarity tower_level = "D") /\
  (20 < tower_level <= 30 -> current_rarity tower_level = "C") /\
  (30 < tower_level <= 40 -> current_rarity tower_level = "B") /\
  (40 < tower_level <= 50 -> current_rarity tower_level = "A") /\
  (50 < tower_level <= 60 -> current_rarity tower_level = "S") /\
  (60 < tower_level -> current_rarity tower_level = "E").
Proof.
  unfold current_rarity, rarity_ranges, first_rarity.
  repeat split; intros H;
    repeat match goal with
      | |- context [ (?a <=? ?b) ] =>
          let E := fresh "E" in
          destruct (Z.leb_spec a b) as [E | E]; try lia
      end; reflexivity.
Qed.

Lemma tier_mapping_witness :
  60 < 61 /\ current_rarity 61 = "E".
Proof.
  split; [lia | apply (tier_mapping 61); lia].
Defined.

Example tier_breakpoints :
  map current_rarity [10; 11; 25; 40; 50; 60; 61; 0]
  = ["E"; "D"; "C"; "B"; "A"; "S"; "E"; "E"].
Proof. reflexivity. Qed.

(** ** Power score *)

Example hero_base_score : base_score (EPlayer hero) true = Ok 47.0000%Q.
Proof. vm_compute. reflexivity. Qed.

Lemma calculate_power_score_raise (e : Entity) (is_player : bool) (ex : Exn)
    (w : World) :
  base_score e is_player = Raise ex ->
  calculate_power_score e is_player w = (Raise ex, w).
Proof.
  intros Hb. unfold calculate_power_score, bind, lift. rewrite Hb. reflexivity.
Qed.

Lemma calculate_power_score_ok (e : Entity) (is_player : bool) (base : Q)
    (w : World) :
  base_score e is_player = Ok base ->
  exists m : Q,
    calculate_power_score e is_player w
    = (Ok (base * (1 + m / 20))%Q, advance w) /\ (0 <= m)%Q /\ (m < 10)%Q.
Proof.
  intros Hb. destruct (random_uniform_0_10 w) as (m & Hm & Hbounds).
  exists m. split; [|exact Hbounds].
  unfold calculate_power_score, bind, lift. rewrite Hb, Hm. reflexivity.
Qed.

(** C2, as stated, fails: with "agility" absent from the stats mapping the
    call raises [KeyError] and returns no score. *)
Lemma missing_stat_raises :
  Player.stats player_no_agility !! "agility" = None /\
  fst (calculate_power_score (EPlayer player_no_agility) true
         (zero_world player_no_agility))
  = Raise (KeyError "agility").
Proof. split; vm_compute; reflexivity. Qed.

(** C2, amended: a stats mapping that lacks "strength", "agility" or
    "vitality" makes [calculate_power_score] raise [KeyError] for the first
    of these keys that is absent, leaving the world as it was; the call
    returns a score exactly when all three keys are present. *)
Theorem power_score_stat_keys (p : Player.t) (w : World) :
  let st := Player.stats p in
  let run := calculate_power_score (EPlayer p) true w in
  (st !! "strength" = None -> run = (Raise (KeyError "strength"), w)) /\
  (is_Some (st !! "strength") -> st !! "agility" = None ->
     run = (Raise (KeyError "agility"), w)) /\
  (is_Some (st !! "strength") -> is_Some (st !! "agility") ->
     st !! "vitality" = None -> run = (Raise (KeyError "vitality"), w)) /\
  ((exists score, fst run = Ok score) <->
     is_Some (st !! "strength") /\ is_Some (st !! "agility") /\
     is_Some (st !! "vitality")).
Proof.
  cbv zeta.
  assert (forall ex, base_score (EPlayer p) true = Raise ex ->
            ~ exists score,
                fst (calculate_power_score (EPlayer p) true w) = Ok score)
    as Hno.
  { intros ex Hb [score Hs].
    rewrite (calculate_power_score_raise _ _ _ w Hb) in Hs. discriminate. }
  split; [|split; [|split; [|split]]].
  - intros Es. apply calculate_power_score_raise.
    unfold base_score, stat. rewrite Es. reflexivity.
  - intros [s Es] Ea. apply calculate_power_score_raise.
    unfold base_score, stat. rewrite Es, Ea. reflexivity.
  - intros [s Es] [a Ea] Ev. apply calculate_power_score_raise.
    unfold base_score, stat. rewrite Es, Ea, Ev. reflexivity.
  - intros Hrun.
    destruct (Player.stats p !! "strength") as [s|] eqn:Es;
      [|exfalso; eapply Hno; [|exact Hrun];
        unfold base_score, stat; rewrite Es; reflexivity].
    destruct (Player.stats p !! "agility") as [a|] eqn:Ea;
      [|exfalso; eapply Hno; [|exact Hrun];
        unfold base_score, stat; rewrite Es, Ea; reflexivity].
    destruct (Player.stats p !! "vitality") as [v|] eqn:Ev;
      [|exfalso; eapply Hno; [|exact Hrun];
        unfold base_score, stat; rewrite Es, Ea, Ev; reflexivity].
    eauto.
  - intros ([s Es] & [a Ea] & [v Ev]).
    edestruct (calculate_power_score_ok (EPlayer p) true) as (m & Hm & _).
    { unfold base_score, stat. rewrite Es, Ea, Ev. reflexivity. }
    rewrite Hm. simpl. eauto.
Qed.

Lemma power_score_stat_keys_witness :
  calculate_power_score (EPlayer player_no_agility) true
    (zero_world player_no_agility)
  = (Raise (KeyError "agility"), zero_world player_no_agility).
Proof.
  apply (power_score_stat_keys player_no_agility (zero_world player_no_agility)).
  - vm_compute. eauto.
  - vm_compute. reflexivity.
Defined.

(** *** The power score in binary64 *)

Section PowerScore64.
Local Open Scope Q_scope.

Lemma random_random_top (w : World) :
  exists r : Q,
    random_random w = (Ok r, advance w) /\ 0 <= r /\ r <= 1 - (1 # 2 ^ 53) /\
    representable r.
Proof.
  eexists. split; [reflexivity|].
  pose proof (N.mod_upper_bound (peek w) (2 ^ 53)%N) as Hlt.
  assert ((2 ^ 53)%N <> 0%N) as Hnz by (vm_compute; discriminate).
  specialize (Hlt Hnz). apply N2Z.inj_lt in Hlt.
  pose proof (N2Z.is_nonneg (peek w mod 2 ^ 53)) as Hk.
  change (Z.of_N (2 ^ 53)) with 9007199254740992%Z in Hlt.
  change (2 ^ 53)%positive with 9007199254740992%positive.
  generalize dependent (Z.of_N (peek w mod 2 ^ 53)). intros k Hlt Hk.
  split; [|split].
  - unfold Qle. simpl. lia.
  - unfold Qle. simpl. lia.
  - exists k, (-53)%Z. split; [|split; [lia|]].
    + change (2 ^ 53)%Z with 9007199254740992%Z. lia.
    + rewrite Qmake_Qdiv. reflexivity.
Qed.

Lemma random_uniform64_0_10 (w : World) :
  random_uniform64 0 10 w = (Ok (mindset64_of w), advance w) /\
  0 <= mindset64_of w /\ mindset64_of w < 10.
Proof.
  split; [reflexivity|].
  destruct (random_random_top w) as (r & Hr & H0 & H1 & _).
  assert (mindset64_of w = rn (rn (inject_Z 0) + rn (rn (inject_Z 10) * r))) as ->.
  { unfold random_random, bind, next_raw, ret in Hr. injection Hr as <-.
    reflexivity. }
  rewrite (rn_Z 0), (rn_Z 10) by (vm_compute; discriminate).
  assert (rn (inject_Z 0 + rn (inject_Z 10 * r)) == rn (inject_Z 10 * r)) as ->.
  { rewrite <- (rn_idempotent (inject_Z 10 * r)) at 2. apply rn_comp.
    change (inject_Z 0) with 0. ring. }
  split.
  - assert (rn 0 == 0) as <- by (vm_compute; reflexivity).
    apply rn_mono. change (inject_Z 10) with 10. lra.
  - apply Qle_lt_trans with (rn (10 - (10 # 2 ^ 53))).
    + apply rn_mono. change (inject_Z 10) with 10.
      assert (10 # 2 ^ 53 == 10 * (1 # 2 ^ 53)) as -> by reflexivity. lra.
    + vm_compute. reflexivity.
Qed.

(** The factor [1 + mindset / 20] lies between 1 and 1.5, both included. *)
Lemma mindset_factor64 (m : Q) :
  0 <= m -> m <= 10 ->
  1 <= float_add (float_of_int 1) (float_div m (float_of_int 20)) /\
  float_add (float_of_int 1) (float_div m (float_of_int 20)) <= 3 # 2.
Proof.
  intros H0 H10. unfold float_add, float_div, float_of_int.
  rewrite (rn_Z 1), (rn_Z 20) by (vm_compute; discriminate).
  assert (m / inject_Z 20 == m * (1 # 20)) as -> by (change (inject_Z 20) with 20; field).
  assert (0 <= rn (m * (1 # 20))) as Hlo.
  { assert (rn 0 == 0) as <- by (vm_compute; reflexivity). apply rn_mono. lra. }
  assert (rn (m * (1 # 20)) <= 1 # 2) as Hhi.
  { assert (rn (1 # 2) == 1 # 2) as <- by (vm_compute; reflexivity).
    apply rn_mono. lra. }
  change (inject_Z 1) with 1. split.
  - assert (rn 1 == 1) as E by (vm_compute; reflexivity).
    rewrite <- E at 1. apply rn_mono. lra.
  - assert (rn (3 # 2) == 3 # 2) as <- by (vm_compute; reflexivity).
    apply rn_mono. lra.
Qed.

(** What a factor between 1 and 1.5 makes of a binary64 base score. *)
Lemma power_score64_bounds (base f : Q) :
  representable base -> 1 <= f -> f <= 3 # 2 ->
  (0 <= base ->
   base <= float_mul base f /\ float_mul base f <= float_mul (float_lit 1.5) base) /\
  (base <= 0 ->
   float_mul (float_lit 1.5) base <= float_mul base f /\ float_mul base f <= base).
Proof.
  intros Hrep H1 H15. unfold float_mul, float_lit.
  assert (rn 1.5 == 3 # 2) as -> by (vm_compute; reflexivity).
  pose proof (rn_representable base Hrep) as Hb.
  split; intros Hsign.
  - assert (0 <= base * (f - 1)) by (apply Qmult_le_0_compat; lra).
    assert (0 <= base * ((3 # 2) - f)) by (apply Qmult_le_0_compat; lra).
    split.
    + rewrite <- Hb at 1. apply rn_mono. lra.
    + apply rn_mono. lra.
  - assert (0 <= (- base) * (f - 1)) by (apply Qmult_le_0_compat; lra).
    assert (0 <= (- base) * ((3 # 2) - f)) by (apply Qmult_le_0_compat; lra).
    split.
    + apply rn_mono. lra.
    + rewrite <- Hb at 2. apply rn_mono. lra.
Qed.

Lemma base_score64_representable (e : Entity) (is_player : bool) (base : Q) :
  base_score64 e is_player = Ok base -> representable base.
Proof.
  unfold base_score64, result_bind.
  destruct is_player, e as [p | m]; try discriminate.
  - destruct (stat p "strength"); [|discriminate].
    destruct (stat p "agility"); [|discriminate].
    destruct (stat p "vitality"); [|discriminate].
    intros H. injection H as <-. apply rn_is_representable.
  - intros H. injection H as <-. apply rn_is_representable.
Qed.

Lemma calculate_power_score64_at (e : Entity) (is_player : bool) (base : Q)
    (w : World) :
  base_score64 e is_player = Ok base ->
  calculate_power_score64 e is_player w
  = (Ok (float_mul base
           (float_add (float_of_int 1)
              (float_div (mindset64_of w) (float_of_int 20)))),
     advance w).
Proof.
  intros Hb. unfold calculate_power_score64, bind, lift. rewrite Hb.
  destruct (random_uniform64_0_10 w) as (-> & _). reflexivity.
Qed.

End PowerScore64.

(** C9, as stated, fails: for the largest raw draw the factor
    [1 + mindset / 20] rounds to exactly 1.5, and the hero, whose base score
    is 47, scores 70.5, which is not below 1.5 times 47. *)
Lemma power_score_reaches_upper_end :
  base_score64 (EPlayer hero) true = Ok 47%Q /\
  fst (calculate_power_score64 (EPlayer hero) true (top_world hero))
  = Ok (141 # 2)%Q /\
  ~ (141 # 2 < 1.5 * 47)%Q.
Proof.
  split; [vm_compute; reflexivity|]. split; [vm_compute; reflexivity|].
  vm_compute. discriminate.
Qed.

(** C9, amended: whenever the pre-mindset score [base] of an entity is
    defined, the call returns [base * (1 + m / 20)], computed in binary64,
    for a mindset [m] with [0 <= m < 10]; for a positive [base] the returned
    score is at least [base] and at most [1.5 * base] (rounded), the upper
    end included. *)
Theorem power_score64_mindset_range (e : Entity) (is_player : bool) (base : Q)
    (w : World) :
  base_score64 e is_player = Ok base ->
  exists m : Q,
    (0 <= m)%Q /\ (m < 10)%Q /\
    let score :=
      float_mul base
        (float_add (float_of_int 1) (float_div m (float_of_int 20))) in
    fst (calculate_power_score64 e is_player w) = Ok score /\
    ((0 < base)%Q ->
       (base <= score)%Q /\ (score <= float_mul (float_lit 1.5) base)%Q).
Proof.
  intros Hb. exists (mindset64_of w).
  destruct (random_uniform64_0_10 w) as (_ & H0 & H10).
  split; [exact H0|]. split; [exact H10|]. cbv zeta.
  rewrite (calculate_power_score64_at e is_player base w Hb).
  split; [reflexivity|]. intros Hpos.
  destruct (mindset_factor64 (mindset64_of w)) as [Hf1 Hf2];
    [exact H0 | apply Qlt_le_weak; exact H10 |].
  apply (power_score64_bounds base _
           (base_score64_representable e is_player base Hb) Hf1 Hf2).
  apply Qlt_le_weak. exact Hpos.
Qed.

Lemma power_score64_mindset_range_witness :
  exists m : Q,
    (0 <= m)%Q /\ (m < 10)%Q /\
    let score :=
      float_mul 47 (float_add (float_of_int 1) (float_div m (float_of_int 20))) in
    fst (calculate_power_score64 (EPlayer hero) true (top_world hero)) = Ok score /\
    ((0 < 47)%Q ->
       (47 <= score)%Q /\ (score <= float_mul (float_lit 1.5) 47)%Q).
Proof.
  apply (power_score64_mindset_range (EPlayer hero) true 47%Q (top_world hero)).
  vm_compute. reflexivity.
Defined.

Example hero_scores64 :
  fst (calculate_power_score64 (EPlayer hero) true (zero_world hero)) = Ok 47%Q /\
  fst (calculate_power_score64 (EPlayer hero) true (top_world hero))
  = Ok (float_mul (float_lit 1.5) 47).
Proof. split; vm_compute; reflexivity. Qed.

(** ** Battle resolver *)

Lemma monster_base_score_ok (m : Monster.t) :
  exists base : Q, base_score (EMonster m) false = Ok base.
Proof. unfold base_score. eauto. Qed.

(** What a call of [process_battle] does to the world: it raises before any
    draw when the player's base score is undefined, and otherwise consumes
    two draws; the player object is the same in both cases. *)
Lemma process_battle_run (monster : Monster.t) (w : World) :
  (exists ex, base_score (EPlayer (w_player w)) true = Raise ex /\
              process_battle monster w = (Raise ex, w)) \/
  (exists br, process_battle monster w = (Ok br, advance (advance w)) /\
              b_monster_id br = Monster.monster_id monster /\
              b_damage_taken br
              = (if player_won br then 0 else Monster.damage monster) /\
              rewards br
              = (if player_won br
                 then mkRewards (Monster.gold_reward monster)
                        (Monster.experience_reward monster)
                 else mkRewards 0 0)).
Proof.
  unfold process_battle, bind, get_player.
  destruct (base_score (EPlayer (w_player w)) true) as [pb | ex] eqn:Hp.
  - right.
    destruct (calculate_power_score_ok _ _ _ w Hp) as (m1 & -> & _).
    destruct (monster_base_score_ok monster) as [mb Hmb].
    destruct (calculate_power_score_ok _ _ _ (advance w) Hmb) as (m2 & -> & _).
    unfold ret. eexists. split; [reflexivity|]. simpl.
    destruct (Qle_bool _ _); simpl; auto.
  - left. exists ex. split; [reflexivity|].
    rewrite (calculate_power_score_raise _ _ _ w Hp). reflexivity.
Qed.

(** C4: given the two power scores drawn for the battle, [process_battle]
    reports a win exactly when the player's score strictly exceeds the
    monster's (a tie is a loss); a win carries the monster's gold and
    experience rewards and no damage, a loss carries zero rewards and the
    monster's damage; the result names the monster. *)
Theorem process_battle_outcome (monster : Monster.t) (w w1 w2 : World)
    (player_power monster_power : Q) :
  calculate_power_score (EPlayer (w_player w)) true w = (Ok player_power, w1) ->
  calculate_power_score (EMonster monster) false w1 = (Ok monster_power, w2) ->
  exists br : BattleResult,
    process_battle monster w = (Ok br, w2) /\
    (player_won br = true <-> (monster_power < player_power)%Q) /\
    ((player_power == monster_power)%Q -> player_won br = false) /\
    (player_won br = true ->
       rewards br = mkRewards (Monster.gold_reward monster)
                      (Monster.experience_reward monster) /\
       b_damage_taken br = 0) /\
    (player_won br = false ->
       rewards br = mkRewards 0 0 /\
       b_damage_taken br = Monster.damage monster) /\
    b_monster_id br = Monster.monster_id monster.
Proof.
  intros Hp Hm.
  unfold process_battle, bind, get_player. rewrite Hp, Hm. unfold ret.
  eexists. split; [reflexivity|]. simpl.
  destruct (Qle_bool player_power monster_power) eqn:Hle; simpl.
  - apply Qle_bool_iff in Hle.
    split; [|split; [|split; [|split]]]; try discriminate; try reflexivity.
    + split; [discriminate|]. intros Hlt. exfalso. lra.
    + intros _. split; reflexivity.
  - assert (~ (player_power <= monster_power)%Q) as Hnle.
    { intros Hc. apply Qle_bool_iff in Hc. congruence. }
    split; [|split; [|split; [|split]]]; try discriminate; try reflexivity.
    + split; [|reflexivity]. intros _. apply Qnot_le_lt. exact Hnle.
    + intros Heq. exfalso. apply Hnle. lra.
    + intros _. split; reflexivity.
Qed.

Lemma process_battle_outcome_witness :
  exists br : BattleResult,
    process_battle slime (zero_world hero)
    = (Ok br, advance (advance (zero_world hero))) /\
    (player_won br = true <-> (slime_power < hero_power)%Q) /\
    ((hero_power == slime_power)%Q -> player_won br = false) /\
    (player_won br = true ->
       rewards br = mkRewards (Monster.gold_reward slime)
                      (Monster.experience_reward slime) /\
       b_damage_taken br = 0) /\
    (player_won br = false ->
       rewards br = mkRewards 0 0 /\
       b_damage_taken br = Monster.damage slime) /\
    b_monster_id br = Monster.monster_id slime.
Proof.
  apply (process_battle_outcome slime (zero_world hero)
           (advance (zero_world hero)) (advance (advance (zero_world hero)))
           hero_power slime_power);
    vm_compute; reflexivity.
Defined.

(** ** Frame: which computations leave the player object alone *)

Create HintDb frame.

Lemma preserves_ret {A} (a : A) : preserves_player (ret a).
Proof. intros w. reflexivity. Qed.

Lemma preserves_raise {A} (e : Exn) : preserves_player (@raise A e).
Proof. intros w. reflexivity. Qed.

Lemma preserves_lift {A} (r : Result A) : preserves_player (lift r).
Proof. intros w. reflexivity. Qed.

Lemma preserves_get_player : preserves_player get_player.
Proof. intros w. reflexivity. Qed.

Lemma preserves_next_raw : preserves_player next_raw.
Proof. intros w. reflexivity. Qed.

Lemma preserves_bind {A B} (m : M A) (k : A -> M B) :
  preserves_player m -> (forall a, preserves_player (k a)) ->
  preserves_player (bind m k).
Proof.
  intros Hm Hk w. unfold bind. specialize (Hm w).
  destruct (m w) as [[a | e] w1]; simpl in *.
  - rewrite Hk. exact Hm.
  - exact Hm.
Qed.

#[local] Hint Resolve preserves_ret preserves_raise preserves_lift
  preserves_get_player preserves_next_raw : frame.
#[local] Hint Extern 2 (preserves_player (bind _ _)) =>
  apply preserves_bind; [|intros ?] : frame.

Ltac frame := auto 10 with frame.

Lemma preserves_random_random : preserves_player random_random.
Proof. unfold random_random. frame. Qed.

Lemma preserves_random_uniform (a b : Q) : preserves_player (random_uniform a b).
Proof. unfold random_uniform, random_random. frame. Qed.

Lemma preserves_randbelow (n : N) : preserves_player (randbelow n).
Proof. unfold randbelow. frame. Qed.

#[local] Hint Resolve preserves_random_random preserves_random_uniform
  preserves_randbelow : frame.

Lemma preserves_random_randint (a b : Z) : preserves_player (random_randint a b).
Proof. unfold random_randint. destruct (0 <? b + 1 - a); frame. Qed.

Lemma preserves_sample_loop {A} (k : nat) (pool : list A) :
  preserves_player (sample_loop k pool).
Proof.
  revert pool. induction k as [|k IH]; intros pool; simpl; [frame|].
  apply preserves_bind; [frame|]. intros j.
  destruct (pool !! N.to_nat j); [|frame]. destruct (last pool); frame.
Qed.

Lemma preserves_random_sample {A} (population : list A) (k : Z) :
  preserves_player (random_sample population k).
Proof.
  unfold random_sample.
  destruct ((0 <=? k) && (k <=? Z.of_nat (length population)));
    [apply preserves_sample_loop | frame].
Qed.

#[local] Hint Resolve preserves_random_randint preserves_random_sample : frame.

Lemma preserves_calculate_power_score (e : Entity) (is_player : bool) :
  preserves_player (calculate_power_score e is_player).
Proof. unfold calculate_power_score. frame. Qed.

#[local] Hint Resolve preserves_calculate_power_score : frame.

Lemma preserves_generate_monsters (catalog : list Template.t)
    (tower_level player_level : Z) :
  preserves_player (generate_monsters catalog tower_level player_level).
Proof. unfold generate_monsters. frame. Qed.


(** ** Monster selection *)

Lemma random_randint_in_range (a b : Z) (w : World) :
  a <= b ->
  exists k : Z, random_randint a b w = (Ok k, advance w) /\ a <= k <= b.
Proof.
  intros Hab. unfold random_randint.
  destruct (Z.ltb_spec 0 (b + 1 - a)) as [Hpos | Hneg]; [|lia].
  unfold bind, randbelow, next_raw, ret. eexists. split; [reflexivity|].
  pose proof (N.mod_upper_bound (peek w) (Z.to_N (b + 1 - a))) as Hlt.
  assert (Z.to_N (b + 1 - a) <> 0%N) as Hnz by lia.
  specialize (Hlt Hnz).
  generalize dependent (peek w mod Z.to_N (b + 1 - a))%N. intros r Hr. lia.
Qed.

Lemma random_randint_empty (a b : Z) (w : World) :
  b < a ->
  random_randint a b w = (Raise (ValueError "empty range for randrange()"), w).
Proof.
  intros Hab. unfold random_randint.
  destruct (Z.ltb_spec 0 (b + 1 - a)) as [Hpos | Hneg]; [lia | reflexivity].
Qed.

(** One step of the pool algorithm removes exactly the drawn element. *)
Lemma pool_step_permutation {A} (pool : list A) (j : nat) (x z : A) :
  pool !! j = Some x -> last pool = Some z ->
  x :: take (length pool - 1) (<[j := z]> pool) ≡ₚ pool.
Proof.
  intros Hj Hlast. apply last_Some in Hlast as [front ->].
  rewrite length_app. simpl.
  replace (length front + 1 - 1)%nat with (length front) by lia.
  destruct (decide (j < length front)%nat) as [Hlt | Hge].
  - rewrite lookup_app_l in Hj by exact Hlt.
    rewrite insert_app_l by exact Hlt.
    rewrite take_app_length' by (rewrite length_insert; reflexivity).
    rewrite insert_take_drop by exact Hlt.
    rewrite <- (take_drop_middle front j x Hj) at 3.
    rewrite <- !Permutation_middle. rewrite app_nil_r.
    apply Permutation_swap.
  - apply lookup_lt_Some in Hj as Hlen. rewrite length_app in Hlen. simpl in Hlen.
    assert (j = length front) as -> by lia.
    rewrite list_lookup_middle in Hj by reflexivity. injection Hj as <-.
    rewrite list_insert_id by (apply list_lookup_middle; reflexivity).
    rewrite take_app_length. rewrite Permutation_app_comm. reflexivity.
Qed.

Lemma sample_loop_spec {A} (k : nat) (pool : list A) (w : World) :
  (k <= length pool)%nat ->
  exists (picked rest : list A) (w' : World),
    sample_loop k pool w = (Ok picked, w') /\
    length picked = k /\ picked ++ rest ≡ₚ pool.
Proof.
  revert pool w. induction k as [|k IH]; intros pool w Hk.
  - exists [], pool, w. repeat split; reflexivity.
  - simpl. unfold bind at 1. unfold randbelow, bind, next_raw, ret.
    set (j := N.to_nat (peek w mod N.of_nat (length pool))).
    assert (j < length pool)%nat as Hj.
    { subst j.
      pose proof (N.mod_upper_bound (peek w) (N.of_nat (length pool))) as Hlt.
      assert (N.of_nat (length pool) <> 0%N) as Hnz by lia.
      specialize (Hlt Hnz).
      generalize dependent (peek w mod N.of_nat (length pool))%N. intros; lia. }
    destruct (lookup_lt_is_Some_2 pool j Hj) as [x Hx]. rewrite Hx.
    destruct (last pool) as [z|] eqn:Hz;
      [|apply last_None in Hz; subst pool; simpl in Hk; lia].
    set (pool' := take (length pool - 1) (<[j := z]> pool)).
    assert (length pool' = length pool - 1)%nat as Hlen.
    { subst pool'. rewrite length_take, length_insert. lia. }
    destruct (IH pool' (advance w)) as (picked & rest & w' & Hrun & Hpl & Hperm);
      [lia|].
    exists (x :: picked), rest, w'.
    unfold bind. rewrite Hrun. split; [reflexivity|]. split; [simpl; lia|].
    simpl. rewrite Hperm. subst pool'. apply pool_step_permutation; assumption.
Qed.

Lemma random_sample_spec {A} (population : list A) (k : Z) (w : World) :
  0 <= k <= Z.of_nat (length population) ->
  exists (picked rest : list A) (w' : World),
    random_sample population k w = (Ok picked, w') /\
    Z.of_nat (length picked) = k /\ picked ++ rest ≡ₚ population.
Proof.
  intros Hk. unfold random_sample.
  destruct (Z.leb_spec 0 k); [|lia].
  destruct (Z.leb_spec k (Z.of_nat (length population))); [|lia]. simpl.
  destruct (sample_loop_spec (Z.to_nat k) population w)
    as (picked & rest & w' & Hrun & Hlen & Hperm); [lia|].
  exists picked, rest, w'. repeat split; [exact Hrun | lia | exact Hperm].
Qed.

Lemma make_monster_id (rarity : string) (picked : list Template.t) :
  map Monster.monster_id (map (make_monster rarity) picked)
  = map Template.monster_id picked.
Proof. rewrite map_map. reflexivity. Qed.

(** With fewer than three candidates the draw of [num_monsters] has an
    empty range: the call raises before anything else happens. *)
Lemma generate_monsters_too_few (catalog : list Template.t)
    (tower_level player_level : Z) (w : World) :
  (length (find catalog (current_rarity tower_level)) < 3)%nat ->
  generate_monsters catalog tower_level player_level w = (Raise too_few, w).
Proof.
  intros Hlen. unfold generate_monsters. cbv zeta. unfold bind.
  rewrite random_randint_empty by lia. reflexivity.
Qed.

Lemma generate_monsters_returns (catalog : list Template.t)
    (tower_level player_level : Z) (w : World) :
  (3 <= length (find catalog (current_rarity tower_level)))%nat ->
  exists monsters w',
    generate_monsters catalog tower_level player_level w = (Ok monsters, w').
Proof.
  intros Hlen. unfold generate_monsters. cbv zeta.
  set (candidates := find catalog (current_rarity tower_level)) in *.
  destruct (random_randint_in_range 3
              (Z.min (Z.of_nat (length candidates)) 7) w)
    as (num & Hnum & Hrange); [lia|].
  destruct (random_sample_spec candidates num (advance w))
    as (picked & rest & w' & Hrun & _); [lia|].
  unfold bind. rewrite Hnum, Hrun. unfold ret. eauto.
Qed.

(** C7, as stated, fails: nothing makes [monster_id] unique in the catalog,
    and three templates that share one identifier yield three monsters with
    that identifier. *)
Lemma duplicate_identifiers_selected :
  let catalog := [rat 1; rat 2; rat 3] in
  (3 <= length (find catalog (current_rarity 1)))%nat /\
  exists monsters,
    fst (generate_monsters catalog 1 1 (zero_world hero)) = Ok monsters /\
    map Monster.monster_id monsters = ["E_rat"; "E_rat"; "E_rat"] /\
    ~ NoDup (map Monster.monster_id monsters).
Proof.
  cbv zeta. split; [vm_compute; lia|].
  eexists. split; [vm_compute; reflexivity|]. split; [reflexivity|].
  simpl. intros Hnd. apply NoDup_cons in Hnd as [Hnotin _].
  apply Hnotin. left.
Qed.

(** C7, amended: with at least three candidates for the selected tier the
    call returns between 3 and min(7, candidate count) monsters, each of the
    selected tier, built from candidates at pairwise distinct positions of
    the candidate list; their identifiers are pairwise distinct whenever
    those of the candidates are. *)
Theorem generate_monsters_selection (catalog : list Template.t)
    (tower_level player_level : Z) (w : World) :
  let rarity := current_rarity tower_level in
  let candidates := find catalog rarity in
  (3 <= length candidates)%nat ->
  exists (monsters : list Monster.t) (w' : World),
    generate_monsters catalog tower_level player_level w = (Ok monsters, w') /\
    (3 <= length monsters <= Nat.min 7 (length candidates))%nat /\
    Forall (fun m => Monster.rarity m = rarity) monsters /\
    (exists picked rest,
        monsters = map (make_monster rarity) picked /\
        picked ++ rest ≡ₚ candidates) /\
    (NoDup (map Template.monster_id candidates) ->
     NoDup (map Monster.monster_id monsters)).
Proof.
  cbv zeta. intros Hlen. unfold generate_monsters. cbv zeta.
  set (candidates := find catalog (current_rarity tower_level)) in *.
  destruct (random_randint_in_range 3
              (Z.min (Z.of_nat (length candidates)) 7) w)
    as (num & Hnum & Hrange); [lia|].
  destruct (random_sample_spec candidates num (advance w))
    as (picked & rest & w' & Hrun & Hpl & Hperm); [lia|].
  exists (map (make_monster (current_rarity tower_level)) picked), w'.
  unfold bind. rewrite Hnum, Hrun. split; [reflexivity|].
  split; [rewrite length_map; lia|].
  split; [apply Forall_forall; intros m Hm;
          apply list_elem_of_In, in_map_iff in Hm as (d & <- & _); reflexivity|].
  split; [exists picked, rest; split; [reflexivity | exact Hperm]|].
  intros Hnd. rewrite make_monster_id.
  rewrite <- Hperm, map_app in Hnd. apply NoDup_app in Hnd as [Hnd _].
  exact Hnd.
Qed.

Lemma generate_monsters_selection_witness :
  exists (monsters : list Monster.t) (w' : World),
    generate_monsters small_catalog 5 3 (zero_world hero) = (Ok monsters, w') /\
    (3 <= length monsters
     <= Nat.min 7 (length (find small_catalog (current_rarity 5))))%nat /\
    Forall (fun m => Monster.rarity m = current_rarity 5) monsters /\
    (exists picked rest,
        monsters = map (make_monster (current_rarity 5)) picked /\
        picked ++ rest ≡ₚ find small_catalog (current_rarity 5)) /\
    (NoDup (map Template.monster_id (find small_catalog (current_rarity 5))) ->
     NoDup (map Monster.monster_id monsters)).
Proof.
  apply (generate_monsters_selection small_catalog 5 3 (zero_world hero)).
  vm_compute. lia.
Defined.

(** C8: when the catalog query yields no candidate, [generate_monsters]
    raises instead of returning a list, and so does [process_raid]; the
    world, and with it the player, is exactly as it was before the call. *)
Theorem empty_catalog_fails (catalog : list Template.t)
    (tower_level player_level : Z) (w : World) :
  find catalog (current_rarity tower_level) = [] ->
  generate_monsters catalog tower_level player_level w = (Raise too_few, w) /\
  process_raid catalog tower_level w = (Raise too_few, w).
Proof.
  intros Hempty.
  assert (forall pl, generate_monsters catalog tower_level pl w
                     = (Raise too_few, w)) as Hgen.
  { intros pl. apply generate_monsters_too_few. rewrite Hempty. simpl. lia. }
  split; [apply Hgen|].
  unfold process_raid, bind, get_player. rewrite Hgen. reflexivity.
Qed.

Lemma empty_catalog_fails_witness :
  generate_monsters [] 5 3 (zero_world hero) = (Raise too_few, zero_world hero) /\
  process_raid [] 5 (zero_world hero) = (Raise too_few, zero_world hero).
Proof.
  apply (empty_catalog_fails [] 5 3 (zero_world hero)). reflexivity.
Defined.

(** ** The raid loop as a big-step relation *)

Lemma raid_loop_outcome (monsters : list Monster.t) (res res' : RaidResults)
    (w w' : World) :
  raid_loop monsters res w = (Ok res', w') ->
  raid_outcome w res monsters res' w'.
Proof.
  revert res w. induction monsters as [|monster rest IH]; intros res w Hrun.
  - injection Hrun as <- <-. constructor.
  - simpl in Hrun. unfold bind at 1 in Hrun. unfold get_player at 1 in Hrun.
    destruct (Qle_bool (Player.current_hp (w_player w)) 0) eqn:Hhp.
    + injection Hrun as <- <-. constructor. exact Hhp.
    + unfold bind at 1 in Hrun.
      destruct (process_battle_run monster w)
        as [(ex & _ & Hb) | (br & Hb & _)]; rewrite Hb in Hrun;
        [discriminate|].
      destruct (player_won br) eqn:Hwon.
      * eapply raid_win; eauto.
      * injection Hrun as <- <-. eapply raid_loss; eauto.
Qed.

Lemma raid_outcome_loop (monsters : list Monster.t) (res res' : RaidResults)
    (w w' : World) :
  raid_outcome w res monsters res' w' ->
  raid_loop monsters res w = (Ok res', w').
Proof.
  induction 1 as [ | w res monster rest Hhp
                   | w res monster rest br res' w' Hhp Hb Hwon _ IH
                   | w res monster rest br Hhp Hb Hwon ]; simpl.
  - reflexivity.
  - unfold bind, get_player. rewrite Hhp. reflexivity.
  - unfold bind at 1. unfold get_player at 1. rewrite Hhp.
    unfold bind at 1. rewrite Hb, Hwon. exact IH.
  - unfold bind at 1. unfold get_player at 1. rewrite Hhp.
    unfold bind at 1. rewrite Hb, Hwon. reflexivity.
Qed.

(** An exception can only come out of a battle, before the loop has touched
    the player. *)
Lemma raid_loop_raise (monsters : list Monster.t) (res : RaidResults)
    (w w' : World) (ex : Exn) :
  raid_loop monsters res w = (Raise ex, w') -> w_player w' = w_player w.
Proof.
  revert res w. induction monsters as [|monster rest IH]; intros res w Hrun.
  - discriminate.
  - simpl in Hrun. unfold bind at 1 in Hrun. unfold get_player at 1 in Hrun.
    destruct (Qle_bool (Player.current_hp (w_player w)) 0); [discriminate|].
    unfold bind at 1 in Hrun.
    destruct (process_battle_run monster w)
      as [(ex' & _ & Hb) | (br & Hb & _)]; rewrite Hb in Hrun.
    + injection Hrun as _ <-. reflexivity.
    + destruct (player_won br).
      * apply IH in Hrun. exact Hrun.
      * discriminate.
Qed.

(** The loop ends normally whenever the player's base score is defined. *)
Lemma raid_loop_total (monsters : list Monster.t) (res : RaidResults)
    (w : World) (base : Q) :
  base_score (EPlayer (w_player w)) true = Ok base ->
  exists res' w', raid_loop monsters res w = (Ok res', w').
Proof.
  revert res w. induction monsters as [|monster rest IH]; intros res w Hbase.
  - simpl. unfold ret. eauto.
  - simpl. unfold bind at 1. unfold get_player at 1.
    destruct (Qle_bool (Player.current_hp (w_player w)) 0); [unfold ret; eauto|].
    unfold bind at 1.
    destruct (process_battle_run monster w)
      as [(ex' & Hex & _) | (br & Hb & _)]; [congruence|].
    rewrite Hb. destruct (player_won br).
    + apply IH. exact Hbase.
    + unfold bind, get_player, put_player, ret. eauto.
Qed.

(** The player at the end of the loop: untouched, or hit once by the
    monster of the last battle, which was lost. *)
Lemma raid_outcome_player (monsters : list Monster.t) (res res' : RaidResults)
    (w w' : World) :
  raid_outcome w res monsters res' w' ->
  (w_player w' = w_player w /\
   monsters_defeated_by res' = monsters_defeated_by res) \/
  (exists br monster,
      last (battles res') = Some br /\ player_won br = false /\
      monster ∈ monsters /\
      b_monster_id br = Monster.monster_id monster /\
      b_damage_taken br = Monster.damage monster /\
      monsters_defeated_by res' = monsters_defeated_by res ++ [b_monster_id br] /\
      w_player w'
      = set_current_hp
          (Player.current_hp (w_player w) - inject_Z (b_damage_taken br))%Q
          (w_player w)).
Proof.
  induction 1 as [ | w res monster rest Hhp
                   | w res monster rest br res' w' Hhp Hb Hwon _ IH
                   | w res monster rest br Hhp Hb Hwon ].
  - left. split; reflexivity.
  - left. split; reflexivity.
  - destruct IH as [[Hp Hd] | (br' & m' & Hlast & Hlost & Hin & Hid & Hdmg & Hd & Hp)].
    + left. split; [exact Hp | exact Hd].
    + right. exists br', m'. repeat split; try assumption.
      apply elem_of_cons. right. exact Hin.
  - right.
    destruct (process_battle_run monster w)
      as [(ex & _ & Hb') | (br' & Hb' & Hid & Hdmg & _)]; [congruence|].
    assert (br' = br) as -> by congruence. rewrite Hwon in Hdmg.
    exists br, monster. simpl. rewrite last_snoc, Hid.
    repeat split; try assumption; try reflexivity.
    apply elem_of_cons. left. reflexivity.
Qed.

(** The battles fought by the loop: at most one per monster, and a lost
    battle is the last one. *)
Lemma raid_outcome_battles (monsters : list Monster.t) (res res' : RaidResults)
    (w w' : World) :
  raid_outcome w res monsters res' w' ->
  exists brs : list BattleResult,
    battles res' = battles res ++ brs /\
    (length brs <= length monsters)%nat /\
    forall (i : nat) (br : BattleResult),
      brs !! i = Some br -> player_won br = false -> S i = length brs.
Proof.
  induction 1 as [ | w res monster rest Hhp
                   | w res monster rest br res' w' Hhp Hb Hwon _ IH
                   | w res monster rest br Hhp Hb Hwon ].
  - exists []. rewrite app_nil_r. repeat split; [simpl; lia|]. intros i br Hi.
    rewrite lookup_nil in Hi. discriminate.
  - exists []. rewrite app_nil_r. repeat split; [simpl; lia|]. intros i br Hi.
    rewrite lookup_nil in Hi. discriminate.
  - destruct IH as (brs & Hbs & Hlen & Hlast). simpl in Hbs.
    exists (br :: brs). rewrite Hbs, <- app_assoc. split; [reflexivity|].
    split; [simpl; lia|]. intros [|i] br' Hi Hlost; simpl in Hi.
    + injection Hi as <-. congruence.
    + simpl. f_equal. eapply Hlast; eassumption.
  - exists [br]. simpl. split; [reflexivity|]. split; [lia|].
    intros [|i] br' Hi Hlost; [reflexivity|]. simpl in Hi.
    rewrite lookup_nil in Hi. discriminate.
Qed.

(** The defeated monsters are a prefix of the selected ones, in order. *)
Lemma raid_outcome_defeated (monsters : list Monster.t) (res res' : RaidResults)
    (w w' : World) :
  raid_outcome w res monsters res' w' ->
  exists wins rest : list Monster.t,
    monsters = wins ++ rest /\
    monsters_defeated res'
    = monsters_defeated res ++ map Monster.monster_id wins.
Proof.
  induction 1 as [ | w res monster rest Hhp
                   | w res monster rest br res' w' Hhp Hb Hwon _ IH
                   | w res monster rest br Hhp Hb Hwon ].
  - exists [], []. simpl. rewrite app_nil_r. split; reflexivity.
  - exists [], (monster :: rest). simpl. rewrite app_nil_r. split; reflexivity.
  - destruct IH as (wins & rest' & -> & Hd). simpl in Hd.
    exists (monster :: wins), rest'. rewrite Hd, <- app_assoc.
    split; reflexivity.
  - exists [], (monster :: rest). simpl. rewrite app_nil_r. split; reflexivity.
Qed.

(** [process_raid] is the monster selection followed by the loop and the
    final count. *)
Lemma process_raid_inv (catalog : list Template.t) (tower_level : Z)
    (w w' : World) (res : RaidResults) :
  process_raid catalog tower_level w = (Ok res, w') ->
  exists (monsters : list Monster.t) (w1 : World) (res0 : RaidResults),
    generate_monsters catalog tower_level (Player.level (w_player w)) w
    = (Ok monsters, w1) /\
    w_player w1 = w_player w /\
    raid_outcome w1 initial_results monsters res0 w' /\
    res = set_raid_complete
            (length (monsters_defeated res0) =? length monsters)%nat res0.
Proof.
  unfold process_raid. unfold bind at 1. unfold get_player at 1.
  unfold bind at 1.
  pose proof (preserves_generate_monsters catalog tower_level
                (Player.level (w_player w)) w) as Hframe.
  destruct (generate_monsters catalog tower_level (Player.level (w_player w)) w)
    as [[monsters | ex] w1]; [|discriminate].
  unfold bind.
  destruct (raid_loop monsters initial_results w1) as [[res0 | ex] w2] eqn:Hloop;
    [|discriminate].
  intros Hrun. injection Hrun as <- <-.
  exists monsters, w1, res0. repeat split; [exact Hframe|].
  apply raid_loop_outcome. exact Hloop.
Qed.

(** With at least three candidates and a player whose base score is
    defined, the raid returns a result. *)
Lemma process_raid_total (catalog : list Template.t) (tower_level : Z)
    (w : World) (base : Q) :
  (3 <= length (find catalog (current_rarity tower_level)))%nat ->
  base_score (EPlayer (w_player w)) true = Ok base ->
  exists res w', process_raid catalog tower_level w = (Ok res, w').
Proof.
  intros Hlen Hbase.
  destruct (generate_monsters_returns catalog tower_level
              (Player.level (w_player w)) w Hlen) as (monsters & w1 & Hgen).
  pose proof (preserves_generate_monsters catalog tower_level
                (Player.level (w_player w)) w) as Hframe.
  rewrite Hgen in Hframe. simpl in Hframe.
  destruct (raid_loop_total monsters initial_results w1 base)
    as (res0 & w' & Hloop); [rewrite Hframe; exact Hbase|].
  unfold process_raid. unfold bind at 1. unfold get_player at 1.
  unfold bind at 1. rewrite Hgen. unfold bind. rewrite Hloop.
  unfold ret. eauto.
Qed.

(** ** Raid orchestration *)

(** C5: when monsters were selected and the player's current HP is at most
    0 as the battle loop begins, the raid reports [player_survived = false]
    and has resolved no battle: no battle result, no monster on either list,
    zero rewards, and the raid is not complete. *)
Theorem stale_hp_no_battle (catalog : list Template.t) (tower_level : Z)
    (w w1 : World) (monsters : list Monster.t) :
  generate_monsters catalog tower_level (Player.level (w_player w)) w
  = (Ok monsters, w1) ->
  monsters <> [] ->
  (Player.current_hp (w_player w1) <= 0)%Q ->
  exists res : RaidResults,
    process_raid catalog tower_level w = (Ok res, w1) /\
    player_survived res = false /\
    battles res = [] /\
    monsters_defeated res = [] /\
    monsters_defeated_by res = [] /\
    total_rewards res = mkRewards 0 0 /\
    raid_complete res = false.
Proof.
  intros Hgen Hne Hhp. apply Qle_bool_iff in Hhp.
  destruct monsters as [|monster rest]; [congruence|].
  unfold process_raid. unfold bind at 1. unfold get_player at 1.
  unfold bind at 1. rewrite Hgen. unfold bind at 1. simpl raid_loop.
  unfold bind at 1. unfold get_player at 1. rewrite Hhp. unfold ret.
  eexists. split; [reflexivity|]. simpl. repeat split; reflexivity.
Qed.

Lemma stale_hp_no_battle_witness :
  exists res : RaidResults,
    process_raid small_catalog 5 (zero_world fallen_hero)
    = (Ok res, Nat.iter 4 advance (zero_world fallen_hero)) /\
    player_survived res = false /\
    battles res = [] /\
    monsters_defeated res = [] /\
    monsters_defeated_by res = [] /\
    total_rewards res = mkRewards 0 0 /\
    raid_complete res = false.
Proof.
  apply (stale_hp_no_battle small_catalog 5 (zero_world fallen_hero)
           (Nat.iter 4 advance (zero_world fallen_hero)) small_catalog_pick).
  - vm_compute. reflexivity.
  - discriminate.
  - vm_compute. discriminate.
Defined.


(** C3, as stated, fails: the raid below wins against "E_rat" and "E_bat"
    and loses the third battle, against a second monster called "E_rat".
    Every selected monster's identifier is on [monsters_defeated], yet
    [raid_complete] is false. *)
Lemma raid_incomplete_with_all_ids_defeated :
  fst (generate_monsters twin_catalog 1 (Player.level hero) twin_world)
  = Ok twin_monsters /\
  fst (process_raid twin_catalog 1 twin_world) = Ok twin_results /\
  map Monster.monster_id twin_monsters = ["E_rat"; "E_bat"; "E_rat"] /\
  monsters_defeated twin_results = ["E_rat"; "E_bat"] /\
  (forall m, m ∈ twin_monsters ->
             Monster.monster_id m ∈ monsters_defeated twin_results) /\
  raid_complete twin_results = false.
Proof.
  split; [vm_compute; reflexivity|]. split; [vm_compute; reflexivity|].
  split; [reflexivity|]. split; [reflexivity|]. split; [|reflexivity].
  intros m Hm. unfold twin_monsters in Hm.
  repeat (apply elem_of_cons in Hm as [-> | Hm]);
    [simpl; set_solver .. | apply elem_of_nil in Hm; contradiction].
Qed.

(** C3, amended: in every result of [process_raid],
    [monsters_defeated_by] has at most one entry, which names the monster of
    the last battle, a lost one; a lost battle is the last battle, and there
    are no more battles than selected monsters; [raid_complete] is true if
    and only if [monsters_defeated] lists the identifiers of all selected
    monsters, in order.  When the selected monsters have pairwise distinct
    identifiers, [raid_complete] is true if and only if every selected
    monster's identifier appears in [monsters_defeated]. *)
Theorem raid_result_invariant (catalog : list Template.t) (tower_level : Z)
    (w w' : World) (res : RaidResults) :
  process_raid catalog tower_level w = (Ok res, w') ->
  exists (monsters : list Monster.t) (w1 : World),
    generate_monsters catalog tower_level (Player.level (w_player w)) w
    = (Ok monsters, w1) /\
    (length (monsters_defeated_by res) <= 1)%nat /\
    (forall id, id ∈ monsters_defeated_by res ->
       exists br, last (battles res) = Some br /\ player_won br = false /\
                  b_monster_id br = id) /\
    (length (battles res) <= length monsters)%nat /\
    (forall (i : nat) (br : BattleResult),
       battles res !! i = Some br -> player_won br = false ->
       S i = length (battles res)) /\
    (raid_complete res = true <->
     monsters_defeated res = map Monster.monster_id monsters) /\
    (NoDup (map Monster.monster_id monsters) ->
     (raid_complete res = true <->
      forall m, m ∈ monsters -> Monster.monster_id m ∈ monsters_defeated res)).
Proof.
  intros Hrun.
  apply process_raid_inv in Hrun as (monsters & w1 & res0 & Hgen & _ & Hout & ->).
  exists monsters, w1. split; [exact Hgen|]. simpl.
  pose proof (raid_outcome_player _ _ _ _ _ Hout) as Hplayer.
  pose proof (raid_outcome_battles _ _ _ _ _ Hout) as (brs & Hbs & Hlen & Hlast).
  pose proof (raid_outcome_defeated _ _ _ _ _ Hout) as (wins & rest & -> & Hd).
  simpl in Hbs, Hd. rewrite Hbs, Hd.
  assert ((length (map Monster.monster_id wins) =? length (wins ++ rest))%nat = true
          <-> rest = []) as Hcomplete.
  { rewrite Nat.eqb_eq, length_map, length_app. split.
    - intros Hl. destruct rest; [reflexivity | simpl in Hl; lia].
    - intros ->. simpl. lia. }
  split; [|split; [|split; [exact Hlen | split; [exact Hlast | split]]]].
  - destruct Hplayer as [[_ ->] | (br & _ & _ & _ & _ & _ & _ & -> & _)];
      simpl; lia.
  - intros id Hid.
    destruct Hplayer as [[_ Hby] | (br & _ & Hl & Hlost & _ & _ & _ & Hby & _)];
      rewrite Hby in Hid; simpl in Hid.
    + apply elem_of_nil in Hid. contradiction.
    + apply list_elem_of_singleton in Hid as ->. exists br.
      rewrite Hbs in Hl. simpl in Hl. auto.
  - rewrite Hcomplete. split.
    + intros ->. rewrite app_nil_r. reflexivity.
    + intros Heq. apply (f_equal length) in Heq.
      rewrite !length_map, length_app in Heq.
      destruct rest; [reflexivity | simpl in Heq; lia].
  - intros Hnd. rewrite Hcomplete. split.
    + intros -> m Hm. rewrite app_nil_r in Hm.
      apply list_elem_of_fmap. exists m. split; [reflexivity | exact Hm].
    + intros Hall. destruct rest as [|m rest']; [reflexivity|]. exfalso.
      rewrite map_app in Hnd. apply NoDup_app in Hnd as (_ & Hdisj & _).
      apply (Hdisj (Monster.monster_id m)).
      * apply Hall. apply elem_of_app. right. apply elem_of_cons. left.
        reflexivity.
      * simpl. apply elem_of_cons. left. reflexivity.
Qed.

Lemma raid_result_invariant_witness :
  exists (monsters : list Monster.t) (w1 : World),
    generate_monsters small_catalog 5 (Player.level (w_player (zero_world hero)))
      (zero_world hero)
    = (Ok monsters, w1) /\
    (length (monsters_defeated_by small_raid_results) <= 1)%nat /\
    (forall id, id ∈ monsters_defeated_by small_raid_results ->
       exists br, last (battles small_raid_results) = Some br /\
                  player_won br = false /\ b_monster_id br = id) /\
    (length (battles small_raid_results) <= length monsters)%nat /\
    (forall (i : nat) (br : BattleResult),
       battles small_raid_results !! i = Some br -> player_won br = false ->
       S i = length (battles small_raid_results)) /\
    (raid_complete small_raid_results = true <->
     monsters_defeated small_raid_results = map Monster.monster_id monsters) /\
    (NoDup (map Monster.monster_id monsters) ->
     (raid_complete small_raid_results = true <->
      forall m, m ∈ monsters ->
                Monster.monster_id m ∈ monsters_defeated small_raid_results)).
Proof.
  apply (raid_result_invariant small_catalog 5 (zero_world hero)
           (Nat.iter 10 advance (zero_world hero)) small_raid_results).
  vm_compute. reflexivity.
Defined.

(** ** Death handler *)

Lemma dict_set_keys {V} (key : string) (v : V) (entries : list (string * V)) :
  map fst (dict_set key v entries) = map fst entries.
Proof.
  unfold dict_set. rewrite map_map. apply map_ext. intros [k x]. simpl.
  destruct (String.eqb k key); reflexivity.
Qed.



Lemma clear_slots_keys (dropped : list DroppedItem)
    (equipment : list (string * option Item)) :
  map fst (clear_slots dropped equipment) = map fst equipment.
Proof.
  revert equipment. induction dropped as [|d dropped IH]; intros equipment;
    simpl; [reflexivity|].
  unfold clear_slots in *. simpl. rewrite IH. apply dict_set_keys.
Qed.



(** The loop drops items from slots of the dictionary only, and clears
    exactly the slots it reports. *)
Lemma drop_loop_spec (entries : list (string * option Item))
    (acc : list DroppedItem) (w : World) :
  exists (dropped : list DroppedItem) (w' : World),
    drop_loop entries acc w = (Ok (acc ++ dropped), w') /\
    (forall slot, slot ∈ map d_slot dropped -> slot ∈ map fst entries) /\
    w_player w'
    = set_equipment (clear_slots dropped (Player.equipment (w_player w)))
        (w_player w).
Proof.
  assert (forall p : Player.t, p = set_equipment (Player.equipment p) p)
    as Hself by (intros []; reflexivity).
  revert acc w. induction entries as [|[slot item] entries IH]; intros acc w.
  - exists [], w. rewrite app_nil_r. repeat split; [|apply Hself].
    intros slot Hin. exact Hin.
  - simpl drop_loop.
    assert (exists dropped w',
               drop_loop entries acc w = (Ok (acc ++ dropped), w') /\
               (forall s, s ∈ map d_slot dropped ->
                          s ∈ map fst ((slot, item) :: entries)) /\
               w_player w'
               = set_equipment
                   (clear_slots dropped (Player.equipment (w_player w)))
                   (w_player w)) as Hskip.
    { destruct (IH acc w) as (dropped & w' & Hrun & Hsub & Hp).
      exists dropped, w'. repeat split; [exact Hrun | | exact Hp].
      intros s Hs. simpl. apply elem_of_cons. right. apply Hsub. exact Hs. }
    destruct item as [d|]; [|exact Hskip].
    destruct (truthy (Some d)); [|exact Hskip].
    unfold bind at 1.
    destruct (random_random_spec w) as (r & -> & _).
    destruct (negb (Qle_bool 0.3 r)).
    + unfold bind at 1. unfold get_player at 1. unfold bind at 1.
      unfold put_player at 1.
      match goal with
      | |- context [drop_loop entries _ ?w0] =>
          destruct (IH (acc ++ [mkDropped slot d]) w0)
            as (dropped & w' & Hrun & Hsub & Hp)
      end.
      exists (mkDropped slot d :: dropped), w'.
      rewrite Hrun, <- app_assoc. split; [reflexivity|]. split.
      * intros s Hs. simpl in Hs |- *.
        apply elem_of_cons in Hs as [-> | Hs]; apply elem_of_cons;
          [left; reflexivity | right; apply Hsub; exact Hs].
      * rewrite Hp. reflexivity.
    + destruct (IH acc (advance w)) as (dropped & w' & Hrun & Hsub & Hp).
      exists dropped, w'. repeat split; [exact Hrun | | exact Hp].
      intros s Hs. simpl. apply elem_of_cons. right. apply Hsub. exact Hs.
Qed.

Lemma int_of_float_floor (x : Q) : (0 <= x)%Q -> int_of_float x = Qfloor x.
Proof.
  destruct x as [n d]. unfold Qle, int_of_float, Qfloor. simpl. intros Hn.
  apply Z.quot_div_nonneg; lia.
Qed.



Example hero_dies :
  let run := handle_player_death (zero_world hero) in
  map d_slot (match fst run with Ok dropped => dropped | Raise _ => [] end)
  = ["weapon"] /\
  Player.gold (w_player (snd run)) = 80 /\
  (Player.current_hp (w_player (snd run)) == 10)%Q /\
  map fst (Player.equipment (w_player (snd run))) = ["weapon"; "armor"; "ring"] /\
  dict_get "weapon" (Player.equipment (w_player (snd run))) = Some None.
Proof. vm_compute. repeat split. Qed.

(** * Further properties of the module *)

(** ** The three ways the raid loop ends *)

Lemma process_battle_won (monster : Monster.t) (w w' : World) (br : BattleResult) :
  process_battle monster w = (Ok br, w') ->
  (player_won br = true -> won_against monster br) /\
  (player_won br = false -> lost_against monster br).
Proof.
  intros Hb.
  destruct (process_battle_run monster w)
    as [(ex & _ & Hb') | (br' & Hb' & Hid & Hdmg & Hrew)]; [congruence|].
  assert (br' = br) as -> by congruence.
  unfold won_against, lost_against.
  split; intros Hwon; rewrite Hwon in Hdmg, Hrew; auto.
Qed.

Lemma raid_outcome_cases (monsters : list Monster.t) (res res' : RaidResults)
    (w w' : World) :
  raid_outcome w res monsters res' w' ->
  exists (wins rest : list Monster.t) (brs : list BattleResult),
    monsters = wins ++ rest /\
    Forall2 won_against wins brs /\
    monsters_defeated res'
    = monsters_defeated res ++ map Monster.monster_id wins /\
    total_rewards res'
    = mkRewards
        (r_gold (total_rewards res) + Zsum (map Monster.gold_reward wins))
        (r_experience (total_rewards res)
         + Zsum (map Monster.experience_reward wins)) /\
    raid_complete res' = raid_complete res /\
    ((rest = [] /\
      (wins = [] \/ Qle_bool (Player.current_hp (w_player w)) 0 = false) /\
      battles res' = battles res ++ brs /\
      monsters_defeated_by res' = monsters_defeated_by res /\
      player_survived res' = player_survived res /\
      damage_taken res' = damage_taken res /\
      w_player w' = w_player w) \/
     (rest <> [] /\ wins = [] /\
      Qle_bool (Player.current_hp (w_player w)) 0 = true /\
      res' = set_player_survived false res /\ w' = w) \/
     (exists monster rest' br,
         rest = monster :: rest' /\
         Qle_bool (Player.current_hp (w_player w)) 0 = false /\
         lost_against monster br /\
         battles res' = battles res ++ brs ++ [br] /\
         monsters_defeated_by res'
         = monsters_defeated_by res ++ [Monster.monster_id monster] /\
         player_survived res' = player_survived res /\
         damage_taken res' = damage_taken res + Monster.damage monster /\
         w_player w'
         = set_current_hp
             (Player.current_hp (w_player w)
              - inject_Z (Monster.damage monster))%Q
             (w_player w))).
Proof.
  induction 1 as [ w res | w res monster rest Hhp
                 | w res monster rest br res' w' Hhp Hb Hwon _ IH
                 | w res monster rest br Hhp Hb Hwon ].
  - exists [], [], []. simpl. rewrite app_nil_r, !Z.add_0_r.
    repeat split; [constructor | destruct (total_rewards res); reflexivity|].
    left. rewrite app_nil_r. repeat split; try reflexivity. left. reflexivity.
  - exists [], (monster :: rest), []. simpl. rewrite app_nil_r, !Z.add_0_r.
    repeat split; [constructor | destruct (total_rewards res); reflexivity|].
    right. left. repeat split; [discriminate | exact Hhp].
  - destruct IH as (wins & rest' & brs & -> & Hall & Hd & Hr & Hc & Hcases).
    apply process_battle_won in Hb as [Hw _]. specialize (Hw Hwon).
    exists (monster :: wins), rest', (br :: brs). simpl in Hd, Hr, Hc.
    split; [reflexivity|]. split; [constructor; assumption|].
    split; [rewrite Hd, <- app_assoc; reflexivity|].
    split.
    { rewrite Hr. destruct Hw as (_ & _ & -> & _). simpl. f_equal; lia. }
    split; [exact Hc|].
    destruct Hcases as [(-> & _ & Hbs & Hby & Hs & Hdt & Hp)
                       | [(_ & _ & Hstale & _) | (m & r & lbr & -> & Hhp' & Hl & Hbs & Hby & Hs & Hdt & Hp)]].
    + left. simpl in Hbs. rewrite Hbs, <- app_assoc.
      split; [reflexivity|]. split; [right; exact Hhp|].
      repeat split; assumption.
    + simpl in Hstale. congruence.
    + right. right. exists m, r, lbr. simpl in Hbs, Hby, Hs, Hdt, Hp.
      rewrite Hbs, <- app_assoc.
      split; [reflexivity|]. split; [exact Hhp|]. split; [exact Hl|].
      repeat split; assumption.
  - apply process_battle_won in Hb as [_ Hl]. specialize (Hl Hwon).
    exists [], (monster :: rest), []. simpl. rewrite app_nil_r, !Z.add_0_r.
    repeat split; [constructor | destruct (total_rewards res); reflexivity|].
    right. right. exists monster, rest, br.
    split; [reflexivity|]. split; [exact Hhp|]. split; [exact Hl|].
    destruct Hl as (Hlost & Hid & Hrew & Hdmg). simpl. rewrite Hdmg.
    repeat split; reflexivity.
Qed.

(** A returned selection has three to seven monsters, each built from its
    own candidate. *)
Lemma generate_monsters_inv (catalog : list Template.t)
    (tower_level player_level : Z) (w w' : World) (monsters : list Monster.t) :
  generate_monsters catalog tower_level player_level w = (Ok monsters, w') ->
  (3 <= length (find catalog (current_rarity tower_level)))%nat /\
  (3 <= length monsters <= 7)%nat /\
  exists picked rest,
    monsters = map (make_monster (current_rarity tower_level)) picked /\
    picked ++ rest ≡ₚ find catalog (current_rarity tower_level).
Proof.
  intros Hgen.
  destruct (le_lt_dec 3 (length (find catalog (current_rarity tower_level))))
    as [Hlen | Hfew];
    [|rewrite generate_monsters_too_few in Hgen by exact Hfew; discriminate].
  split; [exact Hlen|].
  revert Hgen. unfold generate_monsters. cbv zeta.
  set (candidates := find catalog (current_rarity tower_level)) in *.
  destruct (random_randint_in_range 3
              (Z.min (Z.of_nat (length candidates)) 7) w)
    as (num & Hnum & Hrange); [lia|].
  destruct (random_sample_spec candidates num (advance w))
    as (picked & rest & w1 & Hrun & Hpl & Hperm); [lia|].
  unfold bind. rewrite Hnum, Hrun. unfold ret. intros Heq.
  injection Heq as <- <-.
  split; [rewrite length_map; lia|]. exists picked, rest.
  split; [reflexivity | exact Hperm].
Qed.

Lemma won_against_ids (wins : list Monster.t) (brs : list BattleResult) :
  Forall2 won_against wins brs ->
  map b_monster_id brs = map Monster.monster_id wins /\
  Forall (fun br => player_won br = true) brs /\
  Zsum (map (fun br => r_gold (rewards br)) brs)
  = Zsum (map Monster.gold_reward wins) /\
  Zsum (map (fun br => r_experience (rewards br)) brs)
  = Zsum (map Monster.experience_reward wins) /\
  Zsum (map b_damage_taken brs) = 0 /\
  length brs = length wins.
Proof.
  induction 1 as [|m br wins brs (Hwon & Hid & Hrew & Hdmg) _
                    (IHid & IHwon & IHg & IHe & IHd & IHl)]; simpl.
  - repeat split. constructor.
  - rewrite Hid, IHid, Hrew, IHg, IHe, Hdmg, IHd, IHl. simpl.
    repeat split. constructor; assumption.
Qed.

(** The three ways a raid ends: every selected monster beaten; nothing
    fought because the player came in with no HP left; or a run of wins
    ended by one lost battle. *)
Lemma process_raid_cases (catalog : list Template.t) (tower_level : Z)
    (w w' : World) (res : RaidResults) :
  process_raid catalog tower_level w = (Ok res, w') ->
  exists (monsters : list Monster.t) (w1 : World)
         (wins rest : list Monster.t) (brs : list BattleResult),
    generate_monsters catalog tower_level (Player.level (w_player w)) w
    = (Ok monsters, w1) /\
    (3 <= length monsters <= 7)%nat /\
    monsters = wins ++ rest /\
    Forall2 won_against wins brs /\
    monsters_defeated res = map Monster.monster_id wins /\
    total_rewards res
    = mkRewards (Zsum (map Monster.gold_reward wins))
        (Zsum (map Monster.experience_reward wins)) /\
    raid_complete res = (length wins =? length monsters)%nat /\
    ((rest = [] /\ ~ (Player.current_hp (w_player w) <= 0)%Q /\
      battles res = brs /\ monsters_defeated_by res = [] /\
      player_survived res = true /\ damage_taken res = 0 /\
      w_player w' = w_player w) \/
     (wins = [] /\ (Player.current_hp (w_player w) <= 0)%Q /\
      battles res = [] /\ monsters_defeated_by res = [] /\
      player_survived res = false /\ damage_taken res = 0 /\
      w_player w' = w_player w) \/
     (exists monster rest' br,
         rest = monster :: rest' /\
         ~ (Player.current_hp (w_player w) <= 0)%Q /\
         lost_against monster br /\
         battles res = brs ++ [br] /\
         monsters_defeated_by res = [Monster.monster_id monster] /\
         player_survived res = true /\
         damage_taken res = Monster.damage monster /\
         w_player w'
         = set_current_hp
             (Player.current_hp (w_player w)
              - inject_Z (Monster.damage monster))%Q
             (w_player w))).
Proof.
  intros Hrun.
  apply process_raid_inv in Hrun as (monsters & w1 & res0 & Hgen & Hp1 & Hout & ->).
  apply generate_monsters_inv in Hgen as Hinv. destruct Hinv as (_ & Hlen & _).
  apply raid_outcome_cases in Hout
      as (wins & rest & brs & Hms & Hall & Hd & Hr & _ & Hcases).
  exists monsters, w1, wins, rest, brs. simpl in Hd, Hr |- *.
  rewrite Hd, length_map, Hr, Hp1 in *.
  split; [exact Hgen|]. split; [exact Hlen|]. split; [exact Hms|].
  split; [exact Hall|]. split; [reflexivity|]. split; [reflexivity|].
  split; [reflexivity|].
  destruct Hcases as [(Hrest & Hhp & Hbs & Hby & Hs & Hdt & Hp)
                     | [(_ & Hwins & Hstale & -> & ->)
                       | (m & r & br & Hrest & Hhp & Hl & Hbs & Hby & Hs & Hdt & Hp)]].
  - left. split; [exact Hrest|]. split.
    { destruct Hhp as [-> | Hhp].
      - subst rest monsters. simpl in Hlen. lia.
      - intros Hc. apply Qle_bool_iff in Hc. congruence. }
    repeat split; assumption.
  - right. left. apply Qle_bool_iff in Hstale. simpl.
    repeat split; try assumption; try reflexivity.
  - right. right. exists m, r, br.
    split; [exact Hrest|]. split.
    { intros Hc. apply Qle_bool_iff in Hc. congruence. }
    split; [exact Hl|]. repeat split; assumption.
Qed.

(** ** What a raid result says *)

(** X1: a raid that returns reports [player_survived = false] exactly when
    the player came in with current HP at most 0; a lost battle, whatever HP
    it leaves, does not clear the flag. *)
Theorem not_survived_iff_no_hp (catalog : list Template.t) (tower_level : Z)
    (w w' : World) (res : RaidResults) :
  process_raid catalog tower_level w = (Ok res, w') ->
  (player_survived res = false <-> (Player.current_hp (w_player w) <= 0)%Q).
Proof.
  intros Hrun.
  apply process_raid_cases in Hrun
      as (monsters & w1 & wins & rest & brs & _ & _ & _ & _ & _ & _ & _ & Hcases).
  destruct Hcases as [(_ & Hhp & _ & _ & Hs & _)
                     | [(_ & Hhp & _ & _ & Hs & _)
                       | (m & r & br & _ & Hhp & _ & _ & _ & Hs & _)]];
    rewrite Hs; split; intros H; try discriminate; try contradiction;
    try reflexivity; try assumption.
Qed.

Lemma not_survived_iff_no_hp_witness :
  player_survived twin_results = false
  <-> (Player.current_hp (w_player twin_world) <= 0)%Q.
Proof.
  apply (not_survived_iff_no_hp twin_catalog 1 twin_world twin_world_after).
  vm_compute. reflexivity.
Defined.

(** X2: when a raid returns with [raid_complete] set, every selected monster
    was fought and beaten: between three and seven battles, all won, one per
    defeated monster, nothing on [monsters_defeated_by], no damage, the
    player reported as survived and left exactly as before. *)
Theorem raid_complete_clean_sweep (catalog : list Template.t) (tower_level : Z)
    (w w' : World) (res : RaidResults) :
  process_raid catalog tower_level w = (Ok res, w') ->
  raid_complete res = true ->
  (3 <= length (battles res) <= 7)%nat /\
  Forall (fun br => player_won br = true) (battles res) /\
  map b_monster_id (battles res) = monsters_defeated res /\
  monsters_defeated_by res = [] /\
  damage_taken res = 0 /\
  player_survived res = true /\
  w_player w' = w_player w.
Proof.
  intros Hrun Hcomplete.
  apply process_raid_cases in Hrun
      as (monsters & w1 & wins & rest & brs & _ & Hlen & -> & Hall & Hd & _
          & Hc & Hcases).
  rewrite Hc in Hcomplete. apply Nat.eqb_eq in Hcomplete.
  rewrite length_app in Hcomplete, Hlen.
  assert (rest = []) as -> by (destruct rest; [reflexivity | simpl in *; lia]).
  apply won_against_ids in Hall as (Hids & Hwon & _ & _ & _ & Hl).
  destruct Hcases as [(_ & _ & -> & Hby & Hdt & Hs & Hp)
                     | [(-> & _) | (m & r & br & Hrest & _)]];
    [|simpl in Hlen; lia | discriminate].
  rewrite Hd, Hl. simpl in Hlen. repeat split; try assumption; lia.
Qed.

Lemma raid_complete_clean_sweep_witness :
  (3 <= length (battles small_raid_results) <= 7)%nat /\
  Forall (fun br => player_won br = true) (battles small_raid_results) /\
  map b_monster_id (battles small_raid_results)
  = monsters_defeated small_raid_results /\
  monsters_defeated_by small_raid_results = [] /\
  damage_taken small_raid_results = 0 /\
  player_survived small_raid_results = true /\
  w_player small_raid_world_after = w_player (zero_world hero).
Proof.
  apply (raid_complete_clean_sweep small_catalog 5 (zero_world hero)
           small_raid_world_after small_raid_results).
  - vm_compute. reflexivity.
  - reflexivity.
Defined.

Lemma take_wins_and_one {A} (wins : list A) (x : A) (rest : list A) :
  take (S (length wins)) (wins ++ x :: rest) = wins ++ [x].
Proof.
  induction wins as [|y wins IH]; simpl; [rewrite take_0; reflexivity|].
  f_equal. exact IH.
Qed.

(** X3: the battle log of a returned raid follows the selection: the i-th
    battle is against the i-th selected monster, and the logged monsters are
    those on [monsters_defeated] followed by those on
    [monsters_defeated_by]. *)
Theorem battles_follow_selection (catalog : list Template.t) (tower_level : Z)
    (w w1 w' : World) (monsters : list Monster.t) (res : RaidResults) :
  generate_monsters catalog tower_level (Player.level (w_player w)) w
  = (Ok monsters, w1) ->
  process_raid catalog tower_level w = (Ok res, w') ->
  map b_monster_id (battles res)
  = map Monster.monster_id (take (length (battles res)) monsters) /\
  map b_monster_id (battles res)
  = monsters_defeated res ++ monsters_defeated_by res.
Proof.
  intros Hgen Hrun.
  apply process_raid_cases in Hrun
      as (monsters' & w1' & wins & rest & brs & Hgen' & _ & Hms & Hall & Hd & _
          & _ & Hcases).
  rewrite Hgen in Hgen'. injection Hgen' as <- <-. subst monsters.
  apply won_against_ids in Hall as (Hids & _ & _ & _ & _ & Hl).
  rewrite Hd.
  destruct Hcases as [(-> & _ & -> & -> & _)
                     | [(-> & _ & -> & -> & _)
                       | (m & r & br & -> & _ & Hlost & -> & -> & _)]].
  - rewrite Hl, !app_nil_r, firstn_all. split; exact Hids.
  - simpl. split; reflexivity.
  - destruct Hlost as (_ & Hid & _).
    rewrite length_app, Hl. simpl. rewrite Nat.add_1_r, take_wins_and_one.
    rewrite !map_app, Hids. simpl. rewrite Hid. split; reflexivity.
Qed.

Lemma battles_follow_selection_witness :
  map b_monster_id (battles twin_results)
  = map Monster.monster_id (take (length (battles twin_results)) twin_monsters) /\
  map b_monster_id (battles twin_results)
  = monsters_defeated twin_results ++ monsters_defeated_by twin_results.
Proof.
  apply (battles_follow_selection twin_catalog 1 twin_world
           (Nat.iter 4 advance twin_world) twin_world_after);
    vm_compute; reflexivity.
Defined.

Lemma Zsum_snoc (l : list Z) (x : Z) : Zsum (l ++ [x]) = Zsum l + x.
Proof.
  unfold Zsum. induction l as [|y l IH]; simpl; [lia|]. rewrite IH. lia.
Qed.

(** X4: the totals of a returned raid add up: [total_rewards] is the sum of
    the gold and experience rewards of the defeated monsters, which is also
    the sum over the battle log, and [damage_taken] is the sum of the damage
    over the battle log. *)
Theorem raid_totals_add_up (catalog : list Template.t) (tower_level : Z)
    (w w1 w' : World) (monsters : list Monster.t) (res : RaidResults) :
  generate_monsters catalog tower_level (Player.level (w_player w)) w
  = (Ok monsters, w1) ->
  process_raid catalog tower_level w = (Ok res, w') ->
  let beaten := take (length (monsters_defeated res)) monsters in
  r_gold (total_rewards res) = Zsum (map Monster.gold_reward beaten) /\
  r_experience (total_rewards res)
  = Zsum (map Monster.experience_reward beaten) /\
  r_gold (total_rewards res)
  = Zsum (map (fun br => r_gold (rewards br)) (battles res)) /\
  r_experience (total_rewards res)
  = Zsum (map (fun br => r_experience (rewards br)) (battles res)) /\
  damage_taken res = Zsum (map b_damage_taken (battles res)).
Proof.
  intros Hgen Hrun. cbv zeta.
  apply process_raid_cases in Hrun
      as (monsters' & w1' & wins & rest & brs & Hgen' & _ & Hms & Hall & Hd & Hr
          & _ & Hcases).
  rewrite Hgen in Hgen'. injection Hgen' as <- <-. subst monsters.
  apply won_against_ids in Hall as (_ & _ & Hg & He & Hdmg & Hl).
  rewrite Hd, length_map, take_app_length, Hr. simpl.
  destruct Hcases as [(_ & _ & -> & _ & _ & -> & _)
                     | [(-> & _ & -> & _ & _ & -> & _)
                       | (m & r & br & _ & _ & Hlost & -> & _ & _ & -> & _)]].
  - rewrite Hg, He, Hdmg. repeat split; reflexivity.
  - simpl. repeat split; reflexivity.
  - destruct Hlost as (_ & _ & Hrew & Hd0).
    rewrite !map_app. cbn [map]. rewrite !Zsum_snoc, Hg, He, Hdmg, Hrew, Hd0. simpl.
    repeat split; lia.
Qed.

Lemma raid_totals_add_up_witness :
  let beaten := take (length (monsters_defeated twin_results)) twin_monsters in
  r_gold (total_rewards twin_results) = Zsum (map Monster.gold_reward beaten) /\
  r_experience (total_rewards twin_results)
  = Zsum (map Monster.experience_reward beaten) /\
  r_gold (total_rewards twin_results)
  = Zsum (map (fun br => r_gold (rewards br)) (battles twin_results)) /\
  r_experience (total_rewards twin_results)
  = Zsum (map (fun br => r_experience (rewards br)) (battles twin_results)) /\
  damage_taken twin_results = Zsum (map b_damage_taken (battles twin_results)).
Proof.
  apply (raid_totals_add_up twin_catalog 1 twin_world
           (Nat.iter 4 advance twin_world) twin_world_after);
    vm_compute; reflexivity.
Defined.

(** ** Monster selection, continued *)

(** X5: [generate_monsters] returns a list exactly when the catalog holds at
    least three candidates of the tier; with fewer (none, one or two) it
    raises the [ValueError] of the empty [randint] range and leaves the world
    as it was; a returned list never has more than seven monsters. *)
Theorem generate_monsters_needs_three (catalog : list Template.t)
    (tower_level player_level : Z) (w : World) :
  let candidates := find catalog (current_rarity tower_level) in
  let run := generate_monsters catalog tower_level player_level w in
  ((exists monsters w', run = (Ok monsters, w')) <-> (3 <= length candidates)%nat) /\
  ((length candidates < 3)%nat -> run = (Raise too_few, w)) /\
  (forall monsters w', run = (Ok monsters, w') -> (length monsters <= 7)%nat).
Proof.
  cbv zeta. split; [split|split].
  - intros (monsters & w' & Hrun).
    apply generate_monsters_inv in Hrun as (Hlen & _). exact Hlen.
  - apply generate_monsters_returns.
  - apply generate_monsters_too_few.
  - intros monsters w' Hrun.
    apply generate_monsters_inv in Hrun as (_ & Hlen & _). lia.
Qed.

Lemma generate_monsters_needs_three_witness :
  generate_monsters pair_catalog 3 1 (zero_world hero)
  = (Raise too_few, zero_world hero).
Proof.
  apply (generate_monsters_needs_three pair_catalog 3 1 (zero_world hero)).
  vm_compute. lia.
Defined.

(** X6: every monster of a returned selection is built from a template of
    the catalog whose identifier starts with the letter of the selected tier;
    the monster carries that identifier and the selected tier as its
    rarity. *)
Theorem generated_monsters_from_catalog (catalog : list Template.t)
    (tower_level player_level : Z) (w w' : World) (monsters : list Monster.t) :
  generate_monsters catalog tower_level player_level w = (Ok monsters, w') ->
  forall m, m ∈ monsters ->
    exists d, d ∈ catalog /\
      m = make_monster (current_rarity tower_level) d /\
      Monster.monster_id m = Template.monster_id d /\
      String.prefix (current_rarity tower_level) (Monster.monster_id m) = true /\
      Monster.rarity m = current_rarity tower_level.
Proof.
  intros Hrun m Hm.
  apply generate_monsters_inv in Hrun as (_ & _ & picked & rest & -> & Hperm).
  apply list_elem_of_In, in_map_iff in Hm as (d & <- & Hd).
  assert (d ∈ find catalog (current_rarity tower_level)) as Hfound.
  { rewrite <- Hperm. apply elem_of_app. left. apply list_elem_of_In. exact Hd. }
  apply list_elem_of_In, filter_In in Hfound as [Hcat Hprefix].
  exists d. split; [apply list_elem_of_In; exact Hcat|].
  repeat split; try reflexivity. exact Hprefix.
Qed.

Lemma generated_monsters_from_catalog_witness :
  Forall
    (fun m =>
       exists d, d ∈ small_catalog /\
         m = make_monster (current_rarity 5) d /\
         Monster.monster_id m = Template.monster_id d /\
         String.prefix (current_rarity 5) (Monster.monster_id m) = true /\
         Monster.rarity m = current_rarity 5)
    small_catalog_pick.
Proof.
  apply Forall_forall.
  apply (generated_monsters_from_catalog small_catalog 5 3
           (zero_world fallen_hero) (Nat.iter 4 advance (zero_world fallen_hero))).
  vm_compute. reflexivity.
Defined.

(** ** Power score, continued *)

Lemma truthy_false_no_power (d : Item) :
  truthy (Some d) = false -> d !! "power" = None.
Proof.
  unfold truthy. intros Hsize. apply negb_false_iff, bool_decide_eq_true in Hsize.
  apply map_size_empty_inv in Hsize. subst d. apply lookup_empty.
Qed.

Lemma equipment_bonus_from (equipment : list (string * option Item)) (start : Q) :
  (fold_left
     (fun bonus entry =>
        match snd entry with
        | Some d =>
            if truthy (Some d) then (bonus + default 0 (d !! "power"))%Q
            else bonus
        | None => bonus
        end)
     equipment start
   == start + Qsum (map slot_power equipment))%Q.
Proof.
  revert start. induction equipment as [|[slot item] equipment IH];
    intros start; cbn [fold_left map Qsum].
  - ring.
  - unfold slot_power at 1. cbn [snd].
    destruct item as [d|]; [destruct (truthy (Some d)) eqn:Ht|];
      rewrite IH; [|rewrite (truthy_false_no_power d Ht)|];
      cbn [default]; ring.
Qed.

Lemma equipment_bonus_sum (equipment : list (string * option Item)) :
  (equipment_bonus equipment == Qsum (map slot_power equipment))%Q.
Proof.
  unfold equipment_bonus. rewrite equipment_bonus_from. ring.
Qed.

Lemma Qsum_permutation (l l' : list Q) : l ≡ₚ l' -> (Qsum l == Qsum l')%Q.
Proof.
  induction 1 as [|x l l' _ IH|x y l|l l' l'' _ IH1 _ IH2]; simpl.
  - reflexivity.
  - rewrite IH. reflexivity.
  - ring.
  - rewrite IH1. exact IH2.
Qed.

Lemma Zsum_permutation (l l' : list Z) : l ≡ₚ l' -> Zsum l = Zsum l'.
Proof.
  induction 1 as [|x l l' _ IH|x y l|l l' l'' _ IH1 _ IH2]; simpl; lia.
Qed.

Lemma Zsum_abs_nonneg {A} (f : A -> Z) (l : list A) :
  0 <= Zsum (map (fun x => Z.abs (f x)) l).
Proof.
  induction l as [|x l IH]; simpl; [lia|].
  fold (Zsum (map (fun x => Z.abs (f x)) l)). lia.
Qed.

Lemma whole_powers_permutation (eq eq' : list (string * option Item)) :
  eq ≡ₚ eq' -> whole_powers eq -> whole_powers eq'.
Proof.
  intros Hperm [Hall Hsum]. split.
  - rewrite <- Hperm. exact Hall.
  - rewrite <- (Zsum_permutation _ _ (Permutation_map _ Hperm)). exact Hsum.
Qed.

Section EquipmentBonus64.
Local Open Scope Q_scope.

Lemma bonus_step64_comp (entry : string * option Item) (b b' : Q) :
  b == b' -> bonus_step64 b entry == bonus_step64 b' entry.
Proof.
  intros Hb. unfold bonus_step64.
  destruct (snd entry) as [d|]; [destruct (truthy (Some d))|]; try exact Hb.
  unfold float_add. rewrite Hb. reflexivity.
Qed.

Lemma bonus_fold64_comp (equipment : list (string * option Item)) (b b' : Q) :
  b == b' ->
  fold_left bonus_step64 equipment b == fold_left bonus_step64 equipment b'.
Proof.
  revert b b'. induction equipment as [|entry equipment IH]; intros b b' Hb;
    cbn [fold_left]; [exact Hb|].
  apply IH, bonus_step64_comp, Hb.
Qed.

Lemma bonus_fold64_representable (equipment : list (string * option Item)) (b : Q) :
  representable b -> representable (fold_left bonus_step64 equipment b).
Proof.
  revert b. induction equipment as [|entry equipment IH]; intros b Hb;
    cbn [fold_left]; [exact Hb|].
  apply IH. unfold bonus_step64.
  destruct (snd entry) as [d|]; [destruct (truthy (Some d))|]; try exact Hb.
  apply rn_is_representable.
Qed.

(** A slot that adds nothing leaves a binary64 bonus as it is. *)
Lemma bonus_step64_gap (slot : string) (item : option Item) (b : Q) :
  representable b ->
  (item = None \/ exists d, item = Some d /\ d !! "power" = None) ->
  bonus_step64 b (slot, item) == b.
Proof.
  intros Hb Hgap. unfold bonus_step64. cbn [snd].
  destruct Hgap as [-> | (d & -> & Hd)]; [reflexivity|].
  destruct (truthy (Some d)); [|reflexivity].
  rewrite Hd. cbn [default]. unfold float_add.
  rewrite <- (rn_representable b Hb) at 2. apply rn_comp. ring.
Qed.

(** While the powers are whole numbers and the running total stays within
    53 bits, no addition rounds. *)
Lemma bonus_fold64_exact (equipment : list (string * option Item)) (b : Q) (z : Z) :
  b == inject_Z z ->
  Forall (fun entry => slot_power entry == inject_Z (Qfloor (slot_power entry)))
    equipment ->
  (Z.abs z + Zsum (map (fun entry => Z.abs (Qfloor (slot_power entry))) equipment)
   <= 2 ^ 53)%Z ->
  fold_left bonus_step64 equipment b == b + Qsum (map slot_power equipment).
Proof.
  revert b z. induction equipment as [|[slot item] equipment IH];
    intros b z Hb Hall Hsum; cbn [fold_left map Qsum]; [ring|].
  apply Forall_cons in Hall as [Hwhole Hall]. cbn [map Zsum fold_right] in Hsum.
  fold (Zsum (map (fun entry => Z.abs (Qfloor (slot_power entry))) equipment))
    in Hsum.
  assert (forall b', b' == b + slot_power (slot, item) ->
            fold_left bonus_step64 equipment b'
            == b + (slot_power (slot, item) + Qsum (map slot_power equipment)))
    as Hnext.
  { intros b' Hb'.
    rewrite (IH b' (z + Qfloor (slot_power (slot, item)))%Z).
    - rewrite Hb'. ring.
    - rewrite Hb', Hb, Hwhole at 1. rewrite inject_Z_plus. reflexivity.
    - exact Hall.
    - lia. }
  apply Hnext. unfold bonus_step64. cbn [snd].
  destruct item as [d|]; [destruct (truthy (Some d)) eqn:Ht|].
  - unfold float_add.
    change (default 0 (d !! "power")) with (slot_power (slot, Some d)).
    assert (b + slot_power (slot, Some d)
            == inject_Z (z + Qfloor (slot_power (slot, Some d)))) as Hz.
    { rewrite inject_Z_plus, <- Hwhole, Hb. reflexivity. }
    rewrite (rn_comp _ _ Hz), Hz. apply rn_Z.
    pose proof (Zsum_abs_nonneg (fun entry => Qfloor (slot_power entry)) equipment).
    lia.
  - unfold slot_power. cbn [snd].
    rewrite (truthy_false_no_power d Ht). cbn [default]. ring.
  - unfold slot_power. cbn [snd]. ring.
Qed.

End EquipmentBonus64.

(** X7: in binary64 the equipment bonus does not feel the slots that add
    nothing: a slot holding [None], an empty record or an item without
    ['power'] can be removed, and equipment of such slots only has bonus 0.
    When the ['power'] attributes are whole numbers whose absolute values sum
    to at most 2^53, no addition rounds: the bonus is their exact sum, the
    value of the exact model, whatever the order of the slots. *)
Theorem equipment_bonus_order_and_gaps :
  (forall eq eq' : list (string * option Item),
      eq ≡ₚ eq' -> whole_powers eq ->
      (equipment_bonus64 eq == Qsum (map slot_power eq))%Q /\
      (equipment_bonus64 eq == equipment_bonus eq)%Q /\
      (equipment_bonus64 eq' == equipment_bonus64 eq)%Q) /\
  (forall (eq1 eq2 : list (string * option Item)) slot item,
      (item = None \/ exists d, item = Some d /\ d !! "power" = None) ->
      (equipment_bonus64 (eq1 ++ (slot, item) :: eq2)
       == equipment_bonus64 (eq1 ++ eq2))%Q) /\
  (forall eq : list (string * option Item),
      Forall (fun entry => truthy (snd entry) = false) eq ->
      equipment_bonus64 eq = 0%Q).
Proof.
  assert (forall eq, whole_powers eq ->
            (equipment_bonus64 eq == Qsum (map slot_power eq))%Q) as Hexact.
  { intros eq [Hall Hsum]. unfold equipment_bonus64.
    fold bonus_step64.
    rewrite (bonus_fold64_exact eq (float_of_int 0) 0).
    - assert (float_of_int 0 == 0)%Q as -> by (vm_compute; reflexivity). ring.
    - vm_compute. reflexivity.
    - exact Hall.
    - simpl. exact Hsum. }
  split; [|split].
  - intros eq eq' Hperm Hwhole. split; [apply Hexact, Hwhole|].
    split; [rewrite (Hexact eq Hwhole), equipment_bonus_sum; reflexivity|].
    rewrite (Hexact eq Hwhole),
      (Hexact eq' (whole_powers_permutation eq eq' Hperm Hwhole)).
    apply Qsum_permutation. rewrite Hperm. reflexivity.
  - intros eq1 eq2 slot item Hgap. unfold equipment_bonus64. fold bonus_step64.
    rewrite !fold_left_app. cbn [fold_left].
    apply bonus_fold64_comp, bonus_step64_gap; [|exact Hgap].
    apply bonus_fold64_representable, rn_is_representable.
  - intros eq Hall. unfold equipment_bonus64.
    change (float_of_int 0) with 0%Q. generalize 0%Q.
    induction Hall as [|[slot item] eq Hfalsy _ IH]; intros start;
      cbn [fold_left snd]; [reflexivity|].
    cbn [snd] in Hfalsy. destruct item as [d|]; [rewrite Hfalsy|]; apply IH.
Qed.

Lemma equipment_bonus_order_and_gaps_witness :
  (equipment_bonus64 (Player.equipment hero)
   == equipment_bonus64 [("weapon", Some (list_to_map [("power", 4.0%Q)]));
                         ("ring", Some ∅)])%Q /\
  (equipment_bonus64 (Player.equipment hero)
   == equipment_bonus (Player.equipment hero))%Q.
Proof.
  split.
  - apply (proj1 (proj2 equipment_bonus_order_and_gaps)
             [("weapon", Some (list_to_map [("power", 4.0%Q)]))]
             [("ring", Some ∅)] "armor" None).
    left. reflexivity.
  - apply (proj1 equipment_bonus_order_and_gaps
             (Player.equipment hero) (Player.equipment hero)).
    + reflexivity.
    + split; [|vm_compute; discriminate].
      repeat constructor; vm_compute; reflexivity.
Defined.

(** With powers that are not whole numbers the order of the slots shows:
    0.1, 0.2 and 0.3 add up to 0.6000000000000001 in this order and to 0.6
    in the reverse order. *)
Example equipment_bonus64_order_shows :
  equipment_bonus64 tenths = float_add (float_lit 0.6) (1 # 2 ^ 53) /\
  equipment_bonus64 (reverse tenths) = float_lit 0.6 /\
  ~ (equipment_bonus64 tenths == equipment_bonus64 (reverse tenths))%Q.
Proof.
  split; [vm_compute; reflexivity|]. split; [vm_compute; reflexivity|].
  vm_compute. discriminate.
Qed.

Lemma rarity_multiplier_cases (rarity : string) :
  let k := default 1.0%Q (rarity_multipliers !! rarity) in
  (rarity = "E" /\ k = 1.0%Q) \/ (rarity = "D" /\ k = 1.3%Q) \/
  (rarity = "C" /\ k = 1.6%Q) \/ (rarity = "B" /\ k = 2.0%Q) \/
  (rarity = "A" /\ k = 2.5%Q) \/ (rarity = "S" /\ k = 3.0%Q) \/
  ((rarity ∉ ["E"; "D"; "C"; "B"; "A"; "S"]) /\ k = 1.0%Q).
Proof.
  cbv zeta.
  destruct (decide (rarity = "E")) as [-> | HE]; [left; split; reflexivity|right].
  destruct (decide (rarity = "D")) as [-> | HD]; [left; split; reflexivity|right].
  destruct (decide (rarity = "C")) as [-> | HC]; [left; split; reflexivity|right].
  destruct (decide (rarity = "B")) as [-> | HB]; [left; split; reflexivity|right].
  destruct (decide (rarity = "A")) as [-> | HA]; [left; split; reflexivity|right].
  destruct (decide (rarity = "S")) as [-> | HS]; [left; split; reflexivity|right].
  split.
  - rewrite !not_elem_of_cons. repeat split; try assumption. apply not_elem_of_nil.
  - unfold rarity_multipliers. cbn [list_to_map foldr fst snd].
    rewrite !lookup_insert_ne by congruence. rewrite lookup_empty. reflexivity.
Qed.

Lemma rarity_multiplier_positive (rarity : string) :
  (1 <= default 1.0 (rarity_multipliers !! rarity))%Q.
Proof.
  destruct (rarity_multiplier_cases rarity)
    as [[_ ->] | [[_ ->] | [[_ ->] | [[_ ->] | [[_ ->] | [[_ ->] | [_ ->]]]]]]];
    unfold Qle; simpl; lia.
Qed.

Lemma calculate_power_score_at (e : Entity) (is_player : bool) (base : Q)
    (w : World) :
  base_score e is_player = Ok base ->
  calculate_power_score e is_player w
  = (Ok (base * (1 + mindset_of w / 20))%Q, advance w) /\
  (0 <= mindset_of w)%Q /\ (mindset_of w < 10)%Q.
Proof.
  intros Hb. destruct (random_uniform_0_10 w) as (m & Hm & Hbounds).
  assert (random_uniform 0 10 w = (Ok (mindset_of w), advance w)) as Hat
      by reflexivity.
  assert (m = mindset_of w) as -> by congruence.
  split; [|exact Hbounds].
  unfold calculate_power_score, bind, lift. rewrite Hb, Hm. reflexivity.
Qed.

Lemma mindset_factor (w : World) : (1 <= 1 + mindset_of w / 20)%Q.
Proof.
  destruct (calculate_power_score_at (EMonster slime) false slime_base w)
    as (_ & H0 & H10); [vm_compute; reflexivity|].
  assert (mindset_of w / 20 == mindset_of w * (1 # 20))%Q as -> by field.
  lra.
Qed.

(** X8: among monsters of one rarity the pre-mindset score is monotone: a
    monster that is at least as high in level, damage and defense scores at
    least as much, and so does its power score under the same mindset
    draw. *)
Theorem monster_score_monotone (m m' : Monster.t) (w : World) :
  Monster.rarity m = Monster.rarity m' ->
  Monster.level m <= Monster.level m' ->
  Monster.damage m <= Monster.damage m' ->
  Monster.defense m <= Monster.defense m' ->
  exists base base' : Q,
    base_score (EMonster m) false = Ok base /\
    base_score (EMonster m') false = Ok base' /\
    (base <= base')%Q /\
    (power_at (EMonster m) false w <= power_at (EMonster m') false w)%Q.
Proof.
  intros Hr Hl Hd Hf.
  destruct (monster_base_score_ok m) as [base Hb].
  destruct (monster_base_score_ok m') as [base' Hb'].
  exists base, base'. split; [exact Hb|]. split; [exact Hb'|].
  assert (base <= base')%Q as Hle.
  { unfold base_score in Hb, Hb'. injection Hb as <-. injection Hb' as <-.
    rewrite <- Hr. pose proof (rarity_multiplier_positive (Monster.rarity m)) as Hk.
    generalize dependent (default 1.0%Q (rarity_multipliers !! Monster.rarity m)).
    intros k Hk.
    assert (inject_Z (Monster.level m * 6) <= inject_Z (Monster.level m' * 6))%Q
      as H1 by (rewrite <- Zle_Qle; lia).
    assert (inject_Z (Monster.damage m) <= inject_Z (Monster.damage m'))%Q
      as H2 by (rewrite <- Zle_Qle; lia).
    assert (inject_Z (Monster.defense m) <= inject_Z (Monster.defense m'))%Q
      as H3 by (rewrite <- Zle_Qle; lia).
    apply Qmult_le_compat_r; lra. }
  split; [exact Hle|].
  unfold power_at.
  destruct (calculate_power_score_at _ _ _ w Hb) as (-> & _).
  destruct (calculate_power_score_at _ _ _ w Hb') as (-> & _).
  simpl. apply Qmult_le_compat_r; [exact Hle|].
  pose proof (mindset_factor w) as H1. lra.
Qed.

Lemma monster_score_monotone_witness :
  exists base base' : Q,
    base_score (EMonster slime) false = Ok base /\
    base_score (EMonster bat) false = Ok base' /\
    (base <= base')%Q /\
    (power_at (EMonster slime) false (zero_world hero)
     <= power_at (EMonster bat) false (zero_world hero))%Q.
Proof.
  apply (monster_score_monotone slime bat (zero_world hero));
    [reflexivity | vm_compute; discriminate ..].
Defined.



(** ** Battles decided before the draw *)

(** X10: in binary64 a battle is decided whatever the two mindset draws are
    when the base scores are far enough apart: a positive player base score
    above 1.5 times the monster's (rounded) always wins (full rewards, no
    damage); a non-negative monster base score of at least 1.5 times the
    player's (rounded) always ends in a loss (no rewards, the monster's
    damage). *)
Theorem battle_decided_by_base_scores (monster : Monster.t) (w : World)
    (player_base monster_base : Q) :
  base_score64 (EPlayer (w_player w)) true = Ok player_base ->
  base_score64 (EMonster monster) false = Ok monster_base ->
  exists br : BattleResult,
    process_battle64 monster w = (Ok br, advance (advance w)) /\
    ((0 < player_base)%Q ->
     (float_mul (float_lit 1.5) monster_base < player_base)%Q ->
     won_against monster br) /\
    ((0 <= monster_base)%Q ->
     (float_mul (float_lit 1.5) player_base <= monster_base)%Q ->
     lost_against monster br).
Proof.
  intros Hp Hm.
  pose proof (calculate_power_score64_at _ _ _ w Hp) as Hrun1.
  pose proof (calculate_power_score64_at _ _ _ (advance w) Hm) as Hrun2.
  destruct (random_uniform64_0_10 w) as (_ & Hw0 & Hw10).
  destruct (random_uniform64_0_10 (advance w)) as (_ & Ha0 & Ha10).
  destruct (mindset_factor64 (mindset64_of w) Hw0 (Qlt_le_weak _ _ Hw10))
    as [Hf1 Hf1'].
  destruct (mindset_factor64 (mindset64_of (advance w)) Ha0 (Qlt_le_weak _ _ Ha10))
    as [Hf2 Hf2'].
  destruct (power_score64_bounds player_base _
              (base_score64_representable _ _ _ Hp) Hf1 Hf1') as [Hppos Hpneg].
  destruct (power_score64_bounds monster_base _
              (base_score64_representable _ _ _ Hm) Hf2 Hf2') as [Hmpos Hmneg].
  unfold process_battle64, bind, get_player. rewrite Hrun1, Hrun2. unfold ret.
  eexists. split; [reflexivity|].
  generalize dependent
    (float_mul player_base
       (float_add (float_of_int 1)
          (float_div (mindset64_of w) (float_of_int 20)))).
  intros player_power _ Hppos Hpneg.
  generalize dependent
    (float_mul monster_base
       (float_add (float_of_int 1)
          (float_div (mindset64_of (advance w)) (float_of_int 20)))).
  intros monster_power _ Hmpos Hmneg.
  unfold won_against, lost_against. simpl. split.
  - intros Hpos Hfar.
    assert (Qle_bool player_power monster_power = false) as ->.
    { apply not_true_is_false. intros Hle. apply Qle_bool_iff in Hle.
      destruct (Hppos (Qlt_le_weak _ _ Hpos)) as [Hlow _].
      destruct (Qlt_le_dec monster_base 0) as [Hneg | Hnonneg].
      - destruct (Hmneg (Qlt_le_weak _ _ Hneg)) as [_ Hup]. lra.
      - destruct (Hmpos Hnonneg) as [_ Hup]. lra. }
    simpl. repeat split; reflexivity.
  - intros Hpos Hfar.
    assert (Qle_bool player_power monster_power = true) as ->.
    { apply Qle_bool_iff.
      destruct (Hmpos Hpos) as [Hlow _].
      destruct (Qlt_le_dec player_base 0) as [Hneg | Hnonneg].
      - destruct (Hpneg (Qlt_le_weak _ _ Hneg)) as [_ Hup]. lra.
      - destruct (Hppos Hnonneg) as [_ Hup]. lra. }
    simpl. repeat split; reflexivity.
Qed.

Lemma battle_decided_by_base_scores_witness :
  exists br : BattleResult,
    process_battle64 slime (zero_world hero)
    = (Ok br, advance (advance (zero_world hero))) /\
    won_against slime br.
Proof.
  destruct (battle_decided_by_base_scores slime (zero_world hero) 47%Q 2%Q)
    as (br & Hrun & Hwin & _); [vm_compute; reflexivity ..|].
  exists br. split; [exact Hrun|]. apply Hwin.
  - vm_compute. reflexivity.
  - vm_compute. reflexivity.
Defined.

(** With the player's base score at exactly 1.5 times the monster's the
    draws decide: the smallest draw for the player and the largest for the
    monster make both scores 3, and the tie is a loss. *)
Example tie_at_the_upper_end :
  base_score64 (EPlayer squire) true = Ok 3%Q /\
  base_score64 (EMonster imp) false = Ok 2%Q /\
  (float_mul (float_lit 1.5) 2 == 3)%Q /\
  player_won
    (match fst (process_battle64 imp low_high_world) with
     | Ok br => br
     | Raise _ => mkBattleResult true 0 (mkRewards 0 0) ""
     end) = false.
Proof. vm_compute. repeat split. Qed.

(** ** Death handler, continued *)

Lemma drop_loop_items (entries : list (string * option Item))
    (acc : list DroppedItem) (w : World) :
  exists (dropped : list DroppedItem) (w' : World),
    drop_loop entries acc w = (Ok (acc ++ dropped), w') /\
    sublist (map dropped_entry dropped) (occupied entries) /\
    stream (w_rng w') = stream (w_rng w) /\
    cursor (w_rng w') = (cursor (w_rng w) + length (occupied entries))%nat.
Proof.
  revert acc w. induction entries as [|[slot item] entries IH]; intros acc w.
  - exists [], w. rewrite app_nil_r. simpl.
    repeat split; [constructor | lia].
  - simpl drop_loop. unfold occupied. cbn [List.filter snd].
    fold (occupied entries).
    destruct item as [d|]; [|apply IH].
    destruct (truthy (Some d)) eqn:Ht; [|apply IH].
    unfold bind at 1.
    destruct (random_random_spec w) as (r & -> & _).
    destruct (negb (Qle_bool 0.3 r)).
    + unfold bind at 1. unfold get_player at 1. unfold bind at 1.
      unfold put_player at 1.
      match goal with
      | |- context [drop_loop entries _ ?w0] =>
          destruct (IH (acc ++ [mkDropped slot d]) w0)
            as (dropped & w' & Hrun & Hsub & Hstream & Hcursor)
      end.
      exists (mkDropped slot d :: dropped), w'.
      rewrite Hrun, <- app_assoc. split; [reflexivity|].
      split; [apply sublist_skip; exact Hsub|].
      split; [exact Hstream|]. rewrite Hcursor. simpl. lia.
    + destruct (IH acc (advance w))
        as (dropped & w' & Hrun & Hsub & Hstream & Hcursor).
      exists dropped, w'. split; [exact Hrun|].
      split; [apply sublist_cons; exact Hsub|].
      split; [exact Hstream|]. rewrite Hcursor. simpl. lia.
Qed.

Lemma dict_get_elem {V} (key : string) (v : V) (entries : list (string * V)) :
  NoDup (map fst entries) -> (key, v) ∈ entries ->
  dict_get key entries = Some v.
Proof.
  induction entries as [|[k x] entries IH]; simpl; intros Hnd Hin.
  - apply elem_of_nil in Hin. contradiction.
  - apply NoDup_cons in Hnd as [Hnotin Hnd].
    apply elem_of_cons in Hin as [Heq | Hin].
    + injection Heq as -> ->. rewrite String.eqb_refl. reflexivity.
    + destruct (String.eqb_spec k key) as [-> | Hne]; [|apply IH; assumption].
      exfalso. apply Hnotin. apply list_elem_of_fmap.
      exists (key, v). split; [reflexivity | exact Hin].
Qed.

Lemma occupied_sublist (equipment : list (string * option Item)) :
  sublist (occupied equipment) equipment.
Proof.
  induction equipment as [|entry equipment IH]; [constructor|].
  unfold occupied. cbn [List.filter]. fold (occupied equipment).
  destruct (truthy (snd entry)); [apply sublist_skip | apply sublist_cons];
    exact IH.
Qed.

Lemma handle_player_death_run (w : World) :
  exists (dropped : list DroppedItem) (w1 : World),
    drop_loop (Player.equipment (w_player w)) [] w = (Ok dropped, w1) /\
    handle_player_death w
    = (Ok dropped,
       mkWorld
         (Player.mk (Player.discord_id (w_player w1)) (Player.level (w_player w1))
            (Player.stats (w_player w1)) (Player.equipment (w_player w1))
            (Player.max_hp (w_player w1) * 0.1)%Q (Player.max_hp (w_player w1))
            (Player.gold (w_player w1)
             - int_of_float (inject_Z (Player.gold (w_player w1)) * 0.2))
            (Player.experience (w_player w1)) None)
         (w_rng w1)) /\
    w_player w1
    = set_equipment (clear_slots dropped (Player.equipment (w_player w)))
        (w_player w).
Proof.
  destruct (drop_loop_spec (Player.equipment (w_player w)) [] w)
    as (dropped & w1 & Hrun & _ & Hp).
  simpl in Hrun. exists dropped, w1. split; [exact Hrun|]. split; [|exact Hp].
  unfold handle_player_death. unfold bind at 1. unfold get_player at 1.
  unfold bind at 1. rewrite Hrun. reflexivity.
Qed.

(** X11: what [handle_player_death] reports as dropped was really worn: the
    returned records are, in slot order, entries of the equipment that held a
    non-empty item; no slot is reported twice and each record holds the item
    its slot held when slots are unique; the generator is asked once per
    occupied slot, so there are never more records than occupied slots. *)
Theorem dropped_items_were_equipped (w : World) :
  exists (dropped : list DroppedItem) (w' : World),
    handle_player_death w = (Ok dropped, w') /\
    let equipment := Player.equipment (w_player w) in
    sublist (map dropped_entry dropped) (occupied equipment) /\
    (length dropped <= length (occupied equipment))%nat /\
    cursor (w_rng w') = (cursor (w_rng w) + length (occupied equipment))%nat /\
    (NoDup (map fst equipment) ->
     NoDup (map d_slot dropped) /\
     forall d, d ∈ dropped ->
       dict_get (d_slot d) equipment = Some (Some (d_item d)) /\
       truthy (Some (d_item d)) = true).
Proof.
  destruct (handle_player_death_run w) as (dropped & w1 & Hloop & Hrun & _).
  destruct (drop_loop_items (Player.equipment (w_player w)) [] w)
    as (dropped' & w1' & Hloop' & Hsub & _ & Hcursor).
  simpl in Hloop'. rewrite Hloop in Hloop'. injection Hloop' as <- <-.
  exists dropped. eexists. split; [exact Hrun|]. cbv zeta. simpl.
  split; [exact Hsub|].
  split; [apply sublist_length in Hsub; rewrite length_map in Hsub; exact Hsub|].
  split; [exact Hcursor|]. intros Hnd.
  assert (sublist (map dropped_entry dropped) (Player.equipment (w_player w)))
    as Hsub'.
  { etransitivity; [exact Hsub | apply occupied_sublist]. }
  split.
  - apply (fmap_sublist fst) in Hsub'.
    change (fst <$> map dropped_entry dropped)
      with (map fst (map dropped_entry dropped)) in Hsub'.
    rewrite map_map in Hsub'. simpl in Hsub'.
    eapply sublist_NoDup; [exact Hnd | exact Hsub'].
  - intros d Hd. split.
    + apply dict_get_elem; [exact Hnd|].
      eapply elem_of_sublist; [|exact Hsub'].
      apply list_elem_of_fmap. exists d. split; [reflexivity | exact Hd].
    + assert (dropped_entry d ∈ occupied (Player.equipment (w_player w)))
        as Hocc.
      { eapply elem_of_sublist; [|exact Hsub].
        apply list_elem_of_fmap. exists d. split; [reflexivity | exact Hd]. }
      apply list_elem_of_In, filter_In in Hocc as [_ Ht]. exact Ht.
Qed.

Lemma dropped_items_were_equipped_witness :
  exists (dropped : list DroppedItem) (w' : World),
    handle_player_death (zero_world hero) = (Ok dropped, w') /\
    NoDup (map d_slot dropped) /\
    forall d, d ∈ dropped ->
      dict_get (d_slot d) (Player.equipment hero) = Some (Some (d_item d)) /\
      truthy (Some (d_item d)) = true.
Proof.
  destruct (dropped_items_were_equipped (zero_world hero))
    as (dropped & w' & Hrun & _ & _ & _ & Hunique).
  exists dropped, w'. split; [exact Hrun|]. apply Hunique.
  apply (bool_decide_unpack _). vm_compute. exact I.
Defined.

(** X12: the death handler keeps its hands off everything else: level,
    stats, max HP, experience and the player's identifier are as before, and
    the equipment keeps every slot, in the same order (a dropped slot stays,
    holding [None]). *)
Theorem handle_player_death_keeps (w : World) :
  exists (dropped : list DroppedItem) (w' : World),
    handle_player_death w = (Ok dropped, w') /\
    let p := w_player w in
    let p' := w_player w' in
    Player.discord_id p' = Player.discord_id p /\
    Player.level p' = Player.level p /\
    Player.stats p' = Player.stats p /\
    Player.max_hp p' = Player.max_hp p /\
    Player.experience p' = Player.experience p /\
    map fst (Player.equipment p') = map fst (Player.equipment p).
Proof.
  destruct (handle_player_death_run w) as (dropped & w1 & _ & Hrun & Hp).
  exists dropped. eexists. split; [exact Hrun|]. cbv zeta. simpl.
  rewrite Hp. simpl. repeat split. apply clear_slots_keys.
Qed.

Lemma int_of_float_fifth (gold : Z) :
  int_of_float (inject_Z gold * 0.2) = Z.quot gold 5.
Proof.
  unfold int_of_float. simpl.
  change (Z.pos (1 * 10)) with (5 * 2).
  apply Z.quot_mul_cancel_r; lia.
Qed.

Lemma int_of_float_comp (x y : Q) : (x == y)%Q -> int_of_float x = int_of_float y.
Proof.
  destruct x as [a b], y as [c d]. unfold Qeq, int_of_float. simpl. intros H.
  rewrite <- (Z.quot_mul_cancel_r a (Z.pos b) (Z.pos d)) by lia.
  rewrite <- (Z.quot_mul_cancel_r c (Z.pos d) (Z.pos b)) by lia.
  rewrite H. f_equal. lia.
Qed.

Lemma int_of_float_opp (x : Q) : int_of_float (- x) = - int_of_float x.
Proof. unfold int_of_float. simpl. apply Z.quot_opp_l. lia. Qed.

Lemma int_of_float_between (x : Q) (q : Z) :
  0 <= q -> (inject_Z q <= x)%Q -> (x < inject_Z (q + 1))%Q -> int_of_float x = q.
Proof.
  intros Hq Hlo Hhi.
  assert (0 <= x)%Q as Hx.
  { apply Qle_trans with (inject_Z q); [|exact Hlo].
    change 0%Q with (inject_Z 0). rewrite <- Zle_Qle. exact Hq. }
  rewrite (int_of_float_floor x Hx).
  pose proof (Qfloor_le x) as H1. pose proof (Qlt_floor x) as H2.
  assert (inject_Z q < inject_Z (Qfloor x + 1))%Q as H3 by lra.
  assert (inject_Z (Qfloor x) < inject_Z (q + 1))%Q as H4 by lra.
  rewrite <- Zlt_Qlt in H3, H4. lia.
Qed.

Section GoldLoss64.
Local Open Scope Q_scope.

Lemma gold_loss64_nonneg (gold : Z) :
  (0 <= gold <= 2 ^ 50)%Z -> gold_loss64 gold = Z.quot gold 5.
Proof.
  intros Hg. rewrite Z.quot_div_nonneg by lia.
  pose proof (Z.div_mod gold 5 ltac:(lia)) as Hdiv.
  pose proof (Z.mod_pos_bound gold 5 ltac:(lia)) as Hmod.
  set (q := (gold / 5)%Z) in *. set (r := (gold mod 5)%Z) in *.
  assert (0 <= q <= 2 ^ 50)%Z as Hq by lia.
  change (2 ^ 50)%Z with 1125899906842624%Z in *.
  unfold gold_loss64, float_mul, float_of_int, float_lit.
  assert (rn 0.2 == 3602879701896397 # 18014398509481984) as Hc
      by (vm_compute; reflexivity).
  assert (inject_Z gold == 5 * inject_Z q + inject_Z r) as HG.
  { rewrite Hdiv, inject_Z_plus, inject_Z_mult. reflexivity. }
  assert (0 <= inject_Z r) as Hr0
      by (change 0 with (inject_Z 0); rewrite <- Zle_Qle; lia).
  assert (inject_Z r <= 4) as Hr4
      by (change 4 with (inject_Z 4); rewrite <- Zle_Qle; lia).
  assert (0 <= inject_Z q) as Hq0
      by (change 0 with (inject_Z 0); rewrite <- Zle_Qle; lia).
  assert (inject_Z gold <= 1125899906842624) as HG50
      by (change 1125899906842624 with (inject_Z 1125899906842624);
          rewrite <- Zle_Qle; lia).
  assert (rn (rn (inject_Z gold) * rn 0.2)
          == rn (inject_Z gold * (3602879701896397 # 18014398509481984))) as Hp.
  { apply rn_comp. rewrite Hc, (rn_Z gold) by lia. reflexivity. }
  apply int_of_float_between; [lia| |]; rewrite Hp.
  - rewrite <- (rn_Z q) by lia. apply rn_mono. lra.
  - apply Qle_lt_trans with (rn (inject_Z (8 * q + 7) * pow2 (-3))).
    + apply rn_mono.
      assert (pow2 (-3) == 1 # 8) as -> by reflexivity.
      rewrite inject_Z_plus, inject_Z_mult.
      change (inject_Z 8) with 8. change (inject_Z 7) with 7. lra.
    + rewrite rn_representable.
      * assert (pow2 (-3) == 1 # 8) as -> by reflexivity.
        rewrite !inject_Z_plus, inject_Z_mult.
        change (inject_Z 8) with 8. change (inject_Z 7) with 7.
        change (inject_Z 1) with 1. lra.
      * exists (8 * q + 7)%Z, (-3)%Z. split; [|split; [lia | reflexivity]].
        change (2 ^ 53)%Z with 9007199254740992%Z. lia.
Qed.

(** Up to 2^50 gold the binary64 product truncates to the same integer as
    the exact fifth. *)
Lemma gold_loss64_fifth (gold : Z) :
  (Z.abs gold <= 2 ^ 50)%Z -> gold_loss64 gold = Z.quot gold 5.
Proof.
  intros Hg. destruct (Z_le_gt_dec 0 gold) as [Hpos | Hneg].
  - apply gold_loss64_nonneg. lia.
  - replace gold with (- - gold)%Z at 2 by lia.
    rewrite Z.quot_opp_l by lia.
    rewrite <- (gold_loss64_nonneg (- gold)) by lia.
    unfold gold_loss64, float_mul, float_of_int.
    rewrite <- int_of_float_opp. apply int_of_float_comp.
    rewrite <- rn_opp. apply rn_comp.
    rewrite inject_Z_opp, rn_opp. ring.
Qed.

End GoldLoss64.

(** Beyond 53 bits the product is rounded before it is truncated. *)
Example gold_loss64_rounds :
  gold_loss64 100 = 20 /\ gold_loss64 (-7) = -1 /\
  gold_loss64 100000000000000007 = 20000000000000000 /\
  Z.quot 100000000000000007 5 = 20000000000000001.
Proof. vm_compute. repeat split. Qed.

(** X13: for a purse of at most 2^50 gold (in absolute value) the penalty
    that the code computes in binary64 is a fifth of the gold, rounded
    towards zero, and the player keeps [gold - gold ÷ 5]; with fewer than 5
    gold (in absolute value) nothing is taken, and a non-negative purse in
    this range stays non-negative, never grows, and keeps at least four
    fifths of its gold. *)
Theorem handle_player_death_gold (w : World) :
  exists (dropped : list DroppedItem) (w' : World),
    handle_player_death w = (Ok dropped, w') /\
    let gold := Player.gold (w_player w) in
    let gold' := Player.gold (w_player w') in
    (Z.abs gold <= 2 ^ 50 ->
     gold' = gold - gold_loss64 gold /\ gold_loss64 gold = Z.quot gold 5) /\
    (-5 < gold < 5 -> gold' = gold) /\
    (0 <= gold <= 2 ^ 50 ->
     0 <= gold' <= gold /\ 4 * gold <= 5 * gold' <= 4 * gold + 4).
Proof.
  destruct (handle_player_death_run w) as (dropped & w1 & _ & Hrun & Hp).
  exists dropped. eexists. split; [exact Hrun|]. cbv zeta. simpl.
  rewrite Hp. simpl. rewrite int_of_float_fifth.
  split; [|split].
  - intros Hrange. rewrite (gold_loss64_fifth _ Hrange). split; reflexivity.
  - intros Hsmall.
    assert (Z.quot (Player.gold (w_player w)) 5 = 0) as ->
        by (apply Z.quot_small_iff; lia).
    lia.
  - intros Hpos. rewrite Z.quot_div_nonneg by lia.
    pose proof (Z.div_mod (Player.gold (w_player w)) 5).
    pose proof (Z.mod_pos_bound (Player.gold (w_player w)) 5). lia.
Qed.

Lemma handle_player_death_gold_witness :
  exists (dropped : list DroppedItem) (w' : World),
    handle_player_death (zero_world hero) = (Ok dropped, w') /\
    Player.gold (w_player w') = Player.gold hero - gold_loss64 (Player.gold hero) /\
    0 <= Player.gold (w_player w') <= Player.gold hero.
Proof.
  destruct (handle_player_death_gold (zero_world hero))
    as (dropped & w' & Hrun & Hloss & _ & Hbounds).
  exists dropped, w'. split; [exact Hrun|]. split.
  - apply Hloss. vm_compute. discriminate.
  - apply Hbounds. vm_compute. split; discriminate.
Defined.

(** X14: a player with positive max HP whom the death handler has sent back
    to camp raids again: the next raid that returns reports the player as
    survived and has resolved at least one battle. *)
Theorem revived_player_fights (catalog : list Template.t) (tower_level : Z)
    (w w1 w2 : World) (dropped : list DroppedItem) (res : RaidResults) :
  (0 < Player.max_hp (w_player w))%Q ->
  handle_player_death w = (Ok dropped, w1) ->
  process_raid catalog tower_level w1 = (Ok res, w2) ->
  (0 < Player.current_hp (w_player w1))%Q /\
  player_survived res = true /\ battles res <> [].
Proof.
  intros Hmax Hdeath Hraid.
  destruct (handle_player_death_run w) as (dropped' & w0 & _ & Hrun & Hp).
  rewrite Hrun in Hdeath. injection Hdeath as _ <-.
  assert (0 < Player.current_hp
                (w_player
                   (mkWorld
                      (Player.mk (Player.discord_id (w_player w0))
                         (Player.level (w_player w0)) (Player.stats (w_player w0))
                         (Player.equipment (w_player w0))
                         (Player.max_hp (w_player w0) * 0.1)%Q
                         (Player.max_hp (w_player w0))
                         (Player.gold (w_player w0)
                          - int_of_float (inject_Z (Player.gold (w_player w0)) * 0.2))
                         (Player.experience (w_player w0)) None)
                      (w_rng w0))))%Q as Hhp.
  { simpl. rewrite Hp. simpl. lra. }
  split; [exact Hhp|].
  apply process_raid_cases in Hraid
      as (monsters & wg & wins & rest & brs & _ & Hlen & -> & Hall & _ & _ & _
          & Hcases).
  apply won_against_ids in Hall as (_ & _ & _ & _ & _ & Hl).
  destruct Hcases as [(-> & _ & -> & _ & -> & _)
                     | [(_ & Hstale & _)
                       | (m & r & br & _ & _ & _ & -> & _ & -> & _)]].
  - split; [reflexivity|]. rewrite app_nil_r in Hlen.
    intros ->. simpl in Hl. lia.
  - exfalso. lra.
  - split; [reflexivity|]. intros Hnil. apply app_eq_nil in Hnil as [_ Hnil].
    discriminate.
Qed.

Lemma revived_player_fights_witness :
  (0 < Player.current_hp (w_player camp_world))%Q /\
  player_survived camp_raid_results = true /\ battles camp_raid_results <> [].
Proof.
  apply (revived_player_fights small_catalog 5 (zero_world hero) camp_world
           camp_raid_world camp_dropped camp_raid_results).
  - vm_compute. reflexivity.
  - vm_compute. reflexivity.
  - vm_compute. reflexivity.
Defined.

(** ** Raid summary *)

Lemma append_assoc (s1 s2 s3 : string) :
  (s1 +:+ s2) +:+ s3 = s1 +:+ (s2 +:+ s3).
Proof.
  induction s1 as [|c s1 IH]; [reflexivity|].
  change (String c ((s1 +:+ s2) +:+ s3) = String c (s1 +:+ s2 +:+ s3)).
  rewrite IH. reflexivity.
Qed.

Lemma append_nil_r (s : string) : s +:+ EmptyString = s.
Proof.
  induction s as [|c s IH]; [reflexivity|].
  change (String c (s +:+ EmptyString) = String c s). rewrite IH. reflexivity.
Qed.

Lemma monster_lines_marked (mark : string) (ids : list string) (s : string) :
  monster_lines mark ids s = s +:+ marked_lines mark ids.
Proof.
  revert s. induction ids as [|id ids IH]; intros s.
  - symmetry. apply append_nil_r.
  - change (monster_lines mark (id :: ids) s)
      with (monster_lines mark ids (s +:+ (mark +:+ " " +:+ id +:+ nl))).
    change (marked_lines mark (id :: ids))
      with (mark +:+ " " +:+ id +:+ nl +:+ marked_lines mark ids).
    rewrite IH, !append_assoc. reflexivity.
Qed.

(** The [.0f] format prints an integer of at most 53 bits digit for digit. *)
Lemma format_0f_exact (n : Z) : Z.abs n <= 2 ^ 53 -> format_0f n = pretty n.
Proof.
  intros Hn. unfold format_0f, float_of_int.
  rewrite (rhe_comp _ _ (rn_Z n Hn)), rhe_Z. reflexivity.
Qed.

(** Beyond 53 bits the digits printed are those of the nearest binary64
    number. *)
Example format_0f_rounds :
  format_0f (2 ^ 53 + 1) = "9007199254740992" /\
  format_0f 100000000000000007 = "100000000000000000" /\
  format_0f (-3) = "-3" /\ format_0f 0 = "0".
Proof. vm_compute. repeat split. Qed.

(** X15: the summary is the title, the damage taken, one check-marked line
    per entry of [monsters_defeated] in order, then (only when the player was
    defeated by a monster) a heading and one cross-marked line per entry of
    [monsters_defeated_by], the gold and experience totals in the [.0f]
    format, and the verdict line, in this order and with nothing else; a
    total of at most 53 bits is printed digit for digit. *)
Theorem create_raid_summary_contents (results : RaidResults) :
  create_raid_summary results
  = "🗡️ **Raid Summary** 🗡️"
    +:+ nl +:+ "❤️ **Health Lost:** " +:+ pretty (damage_taken results) +:+ nl
    +:+ nl +:+ "**Monsters Defeated:**" +:+ nl
    +:+ marked_lines "✅" (monsters_defeated results)
    +:+ match monsters_defeated_by results with
        | [] => ""
        | _ :: _ =>
            nl +:+ "**Monsters that Defeated You:**" +:+ nl
            +:+ marked_lines "❌" (monsters_defeated_by results)
        end
    +:+ nl +:+ "**Rewards:**" +:+ nl
    +:+ "💰 Gold: " +:+ format_0f (r_gold (total_rewards results)) +:+ nl
    +:+ "✨ Experience: " +:+ format_0f (r_experience (total_rewards results)) +:+ nl
    +:+ verdict results /\
  (Z.abs (r_gold (total_rewards results)) <= 2 ^ 53 ->
   format_0f (r_gold (total_rewards results))
   = pretty (r_gold (total_rewards results))) /\
  (Z.abs (r_experience (total_rewards results)) <= 2 ^ 53 ->
   format_0f (r_experience (total_rewards results))
   = pretty (r_experience (total_rewards results))).
Proof.
  split; [|split; apply format_0f_exact].
  unfold create_raid_summary. cbv zeta.
  rewrite (monster_lines_marked "✅").
  destruct (monsters_defeated_by results) as [|id ids].
  - rewrite !append_assoc. reflexivity.
  - rewrite (monster_lines_marked "❌"), !append_assoc. reflexivity.
Qed.

Lemma create_raid_summary_contents_witness :
  format_0f (r_gold (total_rewards twin_results))
  = pretty (r_gold (total_rewards twin_results)).
Proof.
  apply (proj1 (proj2 (create_raid_summary_contents twin_results))).
  vm_compute. discriminate.
Defined.

Example twin_raid_summary :
  create_raid_summary twin_results
  = "🗡️ **Raid Summary** 🗡️" +:+ nl
    +:+ "❤️ **Health Lost:** 5" +:+ nl +:+ nl
    +:+ "**Monsters Defeated:**" +:+ nl
    +:+ "✅ E_rat" +:+ nl
    +:+ "✅ E_bat" +:+ nl +:+ nl
    +:+ "**Monsters that Defeated You:**" +:+ nl
    +:+ "❌ E_rat" +:+ nl +:+ nl
    +:+ "**Rewards:**" +:+ nl
    +:+ "💰 Gold: 20" +:+ nl
    +:+ "✨ Experience: 30" +:+ nl +:+ nl
    +:+ "⚠️ Raid Abandoned - Retreated safely".
Proof. vm_compute. reflexivity. Qed.

(** ** The raid command *)

Lemma process_raid_raise (catalog : list Template.t) (tower_level : Z)
    (w w' : World) (ex : Exn) :
  process_raid catalog tower_level w = (Raise ex, w') ->
  w_player w' = w_player w.
Proof.
  unfold process_raid. unfold bind at 1. unfold get_player at 1.
  unfold bind at 1.
  pose proof (preserves_generate_monsters catalog tower_level
                (Player.level (w_player w)) w) as Hframe.
  destruct (generate_monsters catalog tower_level
              (Player.level (w_player w)) w) as [[monsters | ex1] w1];
    simpl in Hframe.
  - unfold bind.
    destruct (raid_loop monsters initial_results w1) as [[res0 | ex2] w2]
      eqn:Hloop; [discriminate|].
    intros Hrun. injection Hrun as _ <-.
    apply raid_loop_raise in Hloop. congruence.
  - intros Hrun. injection Hrun as _ <-. exact Hframe.
Qed.

Lemma handle_raid_command_run (catalog : list Template.t) (tower_level : Z)
    (w w1 : World) (res : RaidResults) :
  process_raid catalog tower_level w = (Ok res, w1) ->
  let w2 := mkWorld (rewarded res (w_player w1)) (w_rng w1) in
  (player_survived res = true ->
   handle_raid_command catalog tower_level w
   = (Ok (mkCommandOutcome (create_raid_summary res)
            (update_of (w_player w2)) None), w2)) /\
  (player_survived res = false ->
   exists dropped w3,
     handle_player_death w2 = (Ok dropped, w3) /\
     handle_raid_command catalog tower_level w
     = (Ok (mkCommandOutcome (create_raid_summary res)
              (update_of (w_player w3)) (Some dropped)), w3)).
Proof.
  intros Hrun. cbv zeta.
  unfold handle_raid_command, bind, get_player, put_player. rewrite Hrun.
  cbv beta iota. cbn [w_player w_rng].
  fold (rewarded res (w_player w1)).
  split; intros Hs; rewrite Hs; cbn [negb].
  - reflexivity.
  - destruct (handle_player_death_run
                (mkWorld (rewarded res (w_player w1)) (w_rng w1)))
      as (dropped & w0 & _ & Hdeath & _).
    eexists dropped, _. split; [exact Hdeath|].
    rewrite Hdeath. reflexivity.
Qed.

(** X16: when the raid raises, so does the command, with the same
    exception: nothing is returned, no update is sent, and the player is as
    before.  In particular a tier with fewer than three candidates makes the
    command raise the [ValueError] of the monster selection and leaves the
    world untouched. *)
Theorem command_fails_with_raid (catalog : list Template.t) (tower_level : Z)
    (w : World) :
  (forall ex w1,
      process_raid catalog tower_level w = (Raise ex, w1) ->
      handle_raid_command catalog tower_level w = (Raise ex, w1) /\
      w_player w1 = w_player w) /\
  ((length (find catalog (current_rarity tower_level)) < 3)%nat ->
   handle_raid_command catalog tower_level w = (Raise too_few, w)).
Proof.
  split.
  - intros ex w1 Hrun. split; [|eapply process_raid_raise; exact Hrun].
    unfold handle_raid_command. unfold bind at 1. rewrite Hrun. reflexivity.
  - intros Hfew. unfold handle_raid_command. unfold bind at 1.
    unfold process_raid. unfold bind at 1. unfold get_player at 1.
    unfold bind at 1. rewrite generate_monsters_too_few by exact Hfew.
    reflexivity.
Qed.

Lemma command_fails_with_raid_witness :
  handle_raid_command pair_catalog 3 (zero_world hero)
  = (Raise too_few, zero_world hero).
Proof.
  apply (command_fails_with_raid pair_catalog 3 (zero_world hero)).
  vm_compute. lia.
Defined.



Lemma create_raid_summary_verdict (results : RaidResults) :
  exists body, create_raid_summary results = body +:+ verdict results.
Proof. eexists. reflexivity. Qed.



(** X19: the closing line of the command's summary tells how the raid
    ended, and there are exactly three endings: every monster beaten ("Raid
    Complete"), a battle lost ("Raid Abandoned - Retreated safely", whatever
    HP is left; no item is dropped), or the player came in with current HP
    at most 0 ("Raid Failed - Player Defeated", with the dropped items
    recorded). *)
Theorem command_verdict (catalog : list Template.t) (tower_level : Z)
    (w w1 : World) (res : RaidResults) :
  process_raid catalog tower_level w = (Ok res, w1) ->
  exists (out : CommandOutcome) (w2 : World) (body : string),
    handle_raid_command catalog tower_level w = (Ok out, w2) /\
    summary out = body +:+ verdict res /\
    ((raid_complete res = true /\ monsters_defeated_by res = [] /\
      verdict res = complete_line /\ dropped_items out = None) \/
     (raid_complete res = false /\ monsters_defeated_by res <> [] /\
      verdict res = abandoned_line /\ dropped_items out = None) \/
     (raid_complete res = false /\ (Player.current_hp (w_player w) <= 0)%Q /\
      verdict res = failed_line /\
      exists dropped, dropped_items out = Some dropped)).
Proof.
  intros Hrun.
  destruct (handle_raid_command_run catalog tower_level w w1 res Hrun)
    as [Halive Hdead].
  destruct (create_raid_summary_verdict res) as [body Hbody].
  apply process_raid_cases in Hrun
      as (monsters & wg & wins & rest & brs & _ & Hlen & -> & _ & _ & _ & Hc
          & Hcases).
  rewrite length_app in Hc, Hlen.
  destruct Hcases as [(-> & _ & _ & Hby & Hs & _)
                     | [(-> & Hhp & _ & _ & Hs & _)
                       | (m & r & br & -> & _ & _ & _ & Hby & Hs & _)]].
  - simpl in Hc. rewrite Nat.add_0_r, Nat.eqb_refl in Hc.
    eexists _, _, body. split; [exact (Halive Hs)|]. split; [exact Hbody|].
    left. unfold verdict. rewrite Hc. repeat split; assumption.
  - destruct (Hdead Hs) as (dropped & w3 & _ & Hout).
    assert (raid_complete res = false) as Hc'.
    { rewrite Hc. apply Nat.eqb_neq. simpl in *. lia. }
    eexists _, _, body. split; [exact Hout|]. split; [exact Hbody|].
    right. right. unfold verdict. rewrite Hc', Hs.
    repeat split; try assumption. exists dropped. reflexivity.
  - assert (raid_complete res = false) as Hc'.
    { rewrite Hc. apply Nat.eqb_neq. simpl. lia. }
    eexists _, _, body. split; [exact (Halive Hs)|]. split; [exact Hbody|].
    right. left. unfold verdict. rewrite Hc', Hs, Hby.
    repeat split; discriminate.
Qed.

Lemma command_verdict_witness :
  exists (out : CommandOutcome) (w2 : World) (body : string),
    handle_raid_command twin_catalog 1 twin_world = (Ok out, w2) /\
    summary out = body +:+ verdict twin_results /\
    ((raid_complete twin_results = true /\ monsters_defeated_by twin_results = [] /\
      verdict twin_results = complete_line /\ dropped_items out = None) \/
     (raid_complete twin_results = false /\
      monsters_defeated_by twin_results <> [] /\
      verdict twin_results = abandoned_line /\ dropped_items out = None) \/
     (raid_complete twin_results = false /\
      (Player.current_hp (w_player twin_world) <= 0)%Q /\
      verdict twin_results = failed_line /\
      exists dropped, dropped_items out = Some dropped)).
Proof.
  apply (command_verdict twin_catalog 1 twin_world twin_world_after).
  vm_compute. reflexivity.
Defined.

(** ** When a raid returns *)

Lemma player_base_score_defined (p : Player.t) :
  (exists base, base_score (EPlayer p) true = Ok base) <->
  is_Some (Player.stats p !! "strength") /\
  is_Some (Player.stats p !! "agility") /\
  is_Some (Player.stats p !! "vitality").
Proof.
  unfold base_score, stat, result_bind.
  destruct (Player.stats p !! "strength") as [s|];
    destruct (Player.stats p !! "agility") as [a|];
    destruct (Player.stats p !! "vitality") as [v|];
    (split; [intros [base Hb] | intros (H1 & H2 & H3)]);
    try discriminate; eauto;
    try (destruct H1 as [? H1]; discriminate H1);
    try (destruct H2 as [? H2]; discriminate H2);
    try (destruct H3 as [? H3]; discriminate H3).
Qed.

(** X20: with at least three candidates in the tier, a raid returns a
    result exactly when the player comes in with current HP at most 0 (no
    battle is fought, so the stats are never read) or the stats mapping has
    "strength", "agility" and "vitality"; otherwise the first battle raises
    and the player is left as before. *)
Theorem raid_returns_iff (catalog : list Template.t) (tower_level : Z)
    (w : World) :
  (3 <= length (find catalog (current_rarity tower_level)))%nat ->
  let p := w_player w in
  let run := process_raid catalog tower_level w in
  ((exists res w', run = (Ok res, w')) <->
   ((Player.current_hp p <= 0)%Q \/
    (is_Some (Player.stats p !! "strength") /\
     is_Some (Player.stats p !! "agility") /\
     is_Some (Player.stats p !! "vitality")))) /\
  (forall ex w', run = (Raise ex, w') -> w_player w' = p).
Proof.
  intros Hlen. cbv zeta. split; [|intros ex w'; apply process_raid_raise].
  destruct (generate_monsters_returns catalog tower_level
              (Player.level (w_player w)) w Hlen) as (monsters & w1 & Hgen).
  pose proof (preserves_generate_monsters catalog tower_level
                (Player.level (w_player w)) w) as Hframe.
  rewrite Hgen in Hframe. simpl in Hframe.
  apply generate_monsters_inv in Hgen as Hinv. destruct Hinv as (_ & Hms & _).
  destruct monsters as [|monster rest]; [simpl in Hms; lia|].
  split.
  - intros (res & w' & Hrun).
    destruct (Qlt_le_dec 0 (Player.current_hp (w_player w))) as [Hpos | Hneg];
      [right | left; exact Hneg].
    apply player_base_score_defined.
    destruct (base_score (EPlayer (w_player w)) true) as [base | ex] eqn:Hb;
      [eauto|].
    revert Hrun. unfold process_raid. unfold bind at 1. unfold get_player at 1.
    unfold bind at 1. rewrite Hgen. unfold bind at 1. simpl raid_loop.
    unfold bind at 1. unfold get_player at 1. rewrite Hframe.
    assert (Qle_bool (Player.current_hp (w_player w)) 0 = false) as ->.
    { apply not_true_is_false. intros Hc. apply Qle_bool_iff in Hc. lra. }
    unfold bind at 1.
    destruct (process_battle_run monster w1)
      as [(ex' & _ & ->) | (br & Hbat & _)]; [discriminate|].
    exfalso. unfold process_battle, bind, get_player in Hbat.
    rewrite Hframe in Hbat.
    rewrite (calculate_power_score_raise _ _ _ w1 Hb) in Hbat. discriminate.
  - intros [Hstale | Hstats].
    + apply Qle_bool_iff in Hstale.
      unfold process_raid. unfold bind at 1. unfold get_player at 1.
      unfold bind at 1. rewrite Hgen. unfold bind at 1. simpl raid_loop.
      unfold bind at 1. unfold get_player at 1. rewrite Hframe, Hstale.
      unfold ret. eauto.
    + apply player_base_score_defined in Hstats as [base Hb].
      eapply process_raid_total; eassumption.
Qed.

Lemma raid_returns_iff_witness :
  (exists res w', process_raid small_catalog 5 (zero_world player_no_agility)
                  = (Ok res, w')) <->
  ((Player.current_hp player_no_agility <= 0)%Q \/
   (is_Some (Player.stats player_no_agility !! "strength") /\
    is_Some (Player.stats player_no_agility !! "agility") /\
    is_Some (Player.stats player_no_agility !! "vitality"))).
Proof.
  apply (raid_returns_iff small_catalog 5 (zero_world player_no_agility)).
  vm_compute. lia.
Defined.
